(** * Name Resolver client of fusera (package [nr]): response reconciliation

    A shallow embedding of [src/nr/nr.go]: the wire types [Payload] and
    [File], the result type [Accession], the reconciliation loop [sanitize]
    and the response handling of [ResolveNames], followed by the properties
    of the reconciliation that the design document states.

    Go maps become [gmap]s, Go strings become [string]s, Go's [int] status a
    [Z] (it is only compared and printed), and a Go [error] an
    [option string] holding the error text ([None] is [nil]). *)

From Stdlib Require Import Ascii.
From stdpp Require Import gmap strings list fin_maps pretty.

Local Open Scope Z_scope.
Local Open Scope string_scope.

(** ** Wire and result types (nr.go, lines 154-174) *)

(** [time.Time] is carried through and never inspected by this package. *)
Definition Time : Type := Z.

Module File.
Record t : Type := mk {
  Name : string;
  Size : string;
  ModifiedDate : Time;
  Md5Hash : string;
  Link : string;
  ExpirationDate : Time;
  Service : string
}.
End File.

Module Payload.
Record t : Type := mk {
  ID : string;
  Status : Z;
  Message : string;
  Files : list File.t
}.
End Payload.

Module Accession.
Record t : Type := mk {
  ID : string;
  Files : gmap string File.t
}.
End Accession.

(** [http.StatusOK] *)
Definition StatusOK : Z := 200.

(** ** Formatting *)

Definition nl : string := String "010"%char "".
Definition tab : string := String "009"%char "".

(** Operands of [fmt.Sprintf] as this package uses them. *)
Inductive arg : Type :=
| ArgS (s : string)
| ArgD (z : Z)
| ArgFile (f : File.t).

(** Result of the HTTP exchange as [ResolveNames] looks at it:
    [resp.StatusCode], [resp.Status], the [Content-Type] header and the
    outcome of [ioutil.ReadAll(resp.Body)] ([None] when reading fails). *)
Module Response.
Record t : Type := mk {
  StatusCode : Z;
  Status : string;
  ContentType : string;
  Body : option string
}.
End Response.

(** The variables of [sanitize] that live across loop iterations. *)
Record loop_state : Type := LoopState {
  accs : gmap string Accession.t;
  msg : string;
  errmsg : string
}.

(** Go's maps are references. The loop state once more, with this made
    explicit: an accession holds the address of its file map, and [heap]
    holds the file maps made so far, by address. *)
Module AccessionRef.
Record t : Type := mk {
  ID : string;
  Files : nat
}.
End AccessionRef.

Record ref_state : Type := RefState {
  heap : list (gmap string File.t);
  raccs : gmap string AccessionRef.t;
  rmsg : string;
  rerrmsg : string
}.

(** What a call of [ResolveNames] yields: the two returned values (a [nil]
    map is [None]) and what it wrote to standard output. *)
Record outcome : Type := Outcome {
  out_accessions : option (gmap string Accession.t);
  out_err : option string;
  out_stdout : string
}.

Section Model.

(** How [%s] renders a whole [File] struct (line 140); it involves
    [time.Time]'s [String] method, which lives outside this package. *)
Variable sprint_File : File.t → string.

(** [json.Unmarshal(bytes, &payload)] with [payload : []Payload] and
    [json.Unmarshal(bytes, &errPayload)] with [errPayload : Payload];
    [None] is a non-nil [err]. The decoder is Go's standard library. *)
Variable unmarshal_payloads : string → option (list Payload.t).
Variable unmarshal_payload : string → option Payload.t.

Definition render (a : arg) : string :=
  match a with
  | ArgS s => s
  | ArgD z => pretty z
  | ArgFile f => sprint_File f
  end.

(** [fmt.Sprintf] (and the formatting of [errors.Errorf]) restricted to
    the verbs [%s] and [%d] applied to operands of the matching kind,
    which is all that nr.go uses. *)
Fixpoint Sprintf (format : string) (args : list arg) : string :=
  match format with
  | "" => ""
  | String c rest =>
      if decide (c = "%"%char) then
        match rest, args with
        | String _ rest', a :: args' => render a +:+ Sprintf rest' args'
        | _, _ => String c (Sprintf rest args)
        end
      else String c (Sprintf rest args)
  end.

(** ** [sanitize] (nr.go, lines 119-152) *)

(** Body of the inner loop, lines 134-144, on the file map of [acc] and
    [msg]; [id] is [p.ID]. *)
Definition file_step (id : string)
    (st : gmap string File.t * string) (f : File.t)
    : gmap string File.t * string :=
  let '(files, msg) := st in
  if decide (File.Link f = "") then
    (files,
     msg +:+ Sprintf ("issue with accession %s: API returned no link for %s" +:+ nl)
               [ArgS id; ArgS (File.Name f)])
  else if decide (File.Name f = "") then
    (files,
     msg +:+ Sprintf ("issue with accession %s: API returned no name for %s" +:+ nl)
               [ArgS id; ArgFile f])
  else (<[File.Name f := f]> files, msg).

(** Body of the outer loop, lines 122-147. *)
Definition payload_step (st : loop_state) (p : Payload.t) : loop_state :=
  if decide (Payload.Status p ≠ StatusOK) then
    {| accs := accs st;
       msg := msg st +:+ Sprintf ("issue with accession %s: %s" +:+ nl)
                           [ArgS (Payload.ID p); ArgS (Payload.Message p)];
       errmsg := errmsg st +:+ Sprintf ("%s: %d" +:+ tab +:+ "%s")
                           [ArgS (Payload.ID p); ArgD (Payload.Status p);
                            ArgS (Payload.Message p)] |}
  else
    (* get existing acc or make a new one *)
    let acc :=
      match accs st !! Payload.ID p with
      | Some a => a
      | None => {| Accession.ID := Payload.ID p; Accession.Files := ∅ |}
      end in
    let '(files, msg') :=
      foldl (file_step (Payload.ID p)) (Accession.Files acc, msg st)
            (Payload.Files p) in
    let acc := {| Accession.ID := Accession.ID acc; Accession.Files := files |} in
    (* finally finished with acc *)
    {| accs := <[Accession.ID acc := acc]> (accs st);
       msg := msg';
       errmsg := errmsg st |}.

Definition sanitize_init : loop_state :=
  {| accs := ∅; msg := ""; errmsg := "" |}.

Definition sanitize_loop (payload : list Payload.t) : loop_state :=
  foldl payload_step sanitize_init payload.

Definition sanitize (payload : list Payload.t)
    : gmap string Accession.t * string * option string :=
  let st := sanitize_loop payload in
  let err :=
    if decide (size (accs st) < 1)%nat then
      Some (Sprintf ("API returned no mountable accessions" +:+ nl +:+ "%s")
              [ArgS (errmsg st)])
    else None in
  (accs st, msg st, err).

(** ** [sanitize] with map references

    [acc = a] (line 132) copies the reference held by [a], and
    [acc.Files[f.Name] = f] (line 143) writes through it, into the map that
    [accs] already holds; [make] (line 129) yields a fresh address. *)
Definition file_step_ref (id : string) (l : nat)
    (st : list (gmap string File.t) * string) (f : File.t)
    : list (gmap string File.t) * string :=
  let '(h, msg) := st in
  if decide (File.Link f = "") then
    (h,
     msg +:+ Sprintf ("issue with accession %s: API returned no link for %s" +:+ nl)
               [ArgS id; ArgS (File.Name f)])
  else if decide (File.Name f = "") then
    (h,
     msg +:+ Sprintf ("issue with accession %s: API returned no name for %s" +:+ nl)
               [ArgS id; ArgFile f])
  else (alter (λ files, <[File.Name f := f]> files) l h, msg).

Definition payload_step_ref (st : ref_state) (p : Payload.t) : ref_state :=
  if decide (Payload.Status p ≠ StatusOK) then
    {| heap := heap st;
       raccs := raccs st;
       rmsg := rmsg st +:+ Sprintf ("issue with accession %s: %s" +:+ nl)
                             [ArgS (Payload.ID p); ArgS (Payload.Message p)];
       rerrmsg := rerrmsg st +:+ Sprintf ("%s: %d" +:+ tab +:+ "%s")
                             [ArgS (Payload.ID p); ArgD (Payload.Status p);
                              ArgS (Payload.Message p)] |}
  else
    let '(acc, h) :=
      match raccs st !! Payload.ID p with
      | Some a => (a, heap st)
      | None =>
          ({| AccessionRef.ID := Payload.ID p;
              AccessionRef.Files := length (heap st) |},
           (heap st ++ [∅])%list)
      end in
    let '(h', msg') :=
      foldl (file_step_ref (Payload.ID p) (AccessionRef.Files acc)) (h, rmsg st)
            (Payload.Files p) in
    {| heap := h';
       raccs := <[AccessionRef.ID acc := acc]> (raccs st);
       rmsg := msg';
       rerrmsg := rerrmsg st |}.

Definition sanitize_ref_init : ref_state :=
  {| heap := []; raccs := ∅; rmsg := ""; rerrmsg := "" |}.

(** Reading an accession through its reference. *)
Definition deref (h : list (gmap string File.t)) (a : AccessionRef.t)
    : option Accession.t :=
  Accession.mk (AccessionRef.ID a) <$> h !! AccessionRef.Files a.

Definition view (st : ref_state) : loop_state :=
  {| accs := omap (deref (heap st)) (raccs st);
     msg := rmsg st;
     errmsg := rerrmsg st |}.

Definition sanitize_ref (payload : list Payload.t)
    : gmap string Accession.t * string * option string :=
  let st := foldl payload_step_ref sanitize_ref_init payload in
  let err :=
    if decide (size (raccs st) < 1)%nat then
      Some (Sprintf ("API returned no mountable accessions" +:+ nl +:+ "%s")
              [ArgS (rerrmsg st)])
    else None in
  (accs (view st), rmsg st, err).

(** ** [ResolveNames], from the response on (nr.go, lines 80-115)

    [exchange] is the outcome of [http.DefaultClient.Do(req)], [None] when
    it returned an error. Debug logging through [twig] is left out. *)
Definition ResolveNames (exchange : option Response.t) : outcome :=
  match exchange with
  | None => Outcome None (Some "can't resolve acc names") ""
  | Some resp =>
    if decide (Response.StatusCode resp ≠ StatusOK) then
      Outcome None
        (Some (Sprintf "encountered error from Name Resolver API: %s"
                 [ArgS (Response.Status resp)])) ""
    else if decide (Response.ContentType resp ≠ "application/json") then
      Outcome None
        (Some (Sprintf "Name Resolver API gave incorrect Content-Type: %s"
                 [ArgS (Response.ContentType resp)])) ""
    else
      match Response.Body resp with
      | None =>
        Outcome None
          (Some "fatal error when trying to read response from Name Resolver API") ""
      | Some bytes =>
        match unmarshal_payloads bytes with
        | None =>
          match unmarshal_payload bytes with
          | None =>
            Outcome None
              (Some "fatal error when trying to read response from Name Resolver API") ""
          | Some errPayload =>
            Outcome None
              (Some (Sprintf "encountered error from Name Resolver API: %d: %s"
                       [ArgD (Payload.Status errPayload);
                        ArgS (Payload.Message errPayload)])) ""
          end
        | Some payload =>
          let '(accessions, msg, err) := sanitize payload in
          Outcome (Some accessions) err
            (if decide (msg ≠ "" ∧ err = None) then msg +:+ nl else "")
        end
      end
  end.

End Model.

(** How often the byte [c] occurs in [s]. *)
Fixpoint count_char (c : ascii) (s : string) : nat :=
  match s with
  | "" => 0
  | String x s' => (if decide (x = c) then 1 else 0) + count_char c s'
  end.

(** ** [ResolveNames], up to the request (nr.go, lines 29-79) *)

(** What the [multipart.Writer] has been given. *)
Inductive part : Type :=
| FormFile (fieldname filename content : string)
| FormField (fieldname value : string).

(** The calls that can fail while the request is put together. *)
Inductive io_op : Type :=
| CreateFormFile (fieldname filename : string)
| Copy (content : string)
| WriteField (fieldname value : string)
| Close
| HTTPNewRequest (method url : string).

Definition default_endpoint : string :=
  "https://www.ncbi.nlm.nih.gov/Traces/names/names.fcgi".

Section RequestModel.

(** The error text with which a call fails, [None] when it succeeds. *)
Variable io_err : io_op → option string.

(** Lines 60-64, over the identifiers in the order in which Go happens to
    walk the map; [None] when a write fails. *)
Fixpoint write_accs (keys : list string) : option (list part) :=
  match keys with
  | [] => Some []
  | acc :: keys =>
      match io_err (WriteField "acc" acc) with
      | Some _ => None
      | None => cons (FormField "acc" acc) <$> write_accs keys
      end
  end.

(** The error returned, or the endpoint and the parts of the form that is
    posted to it. [ngc] is [None] for a nil slice; of [accs] only the keys
    are looked at. *)
Definition ResolveNames_request
    (url loc : string) (ngc : option string) (accs : gmap string bool)
    : string + (string * list part) :=
  let url := if decide (url = "") then default_endpoint else url in
  let ngc_part : string + list part :=
    match ngc with
    | Some content =>
        (* handle ngc bytes *)
        match io_err (CreateFormFile "ngc" "ngc") with
        | Some err => inl ("couldn't create form file for ngc: " +:+ err)
        | None =>
            match io_err (Copy content) with
            | Some _ =>
                inl ("couldn't copy ngc contents: " +:+ content
                     +:+ " into multipart file to make request")
            | None => inr [FormFile "ngc" "ngc" content]
            end
        end
    | None => inr []
    end in
  match ngc_part with
  | inl err => inl err
  | inr parts_ngc =>
  match io_err (WriteField "version" "xc-1.0") with
  | Some _ => inl "could not write version field to multipart.Writer"
  | None =>
  match io_err (WriteField "format" "json") with
  | Some _ => inl "could not write format field to multipart.Writer"
  | None =>
  let loc_part : string + list part :=
    if decide (loc ≠ "") then
      match io_err (WriteField "location" loc) with
      | Some _ => inl "could not write loc field to multipart.Writer"
      | None => inr [FormField "location" loc]
      end
    else inr [] in
  match loc_part with
  | inl err => inl err
  | inr parts_loc =>
  match write_accs (map_to_list accs).*1 with
  | None => inl "could not write acc field to multipart.Writer"
  | Some parts_acc =>
  match io_err Close with
  | Some _ => inl "could not close multipart.Writer"
  | None =>
  match io_err (HTTPNewRequest "POST" url) with
  | Some _ => inl "can't create request to Name Resolver API"
  | None =>
      inr (url,
           (parts_ngc
            ++ [FormField "version" "xc-1.0"; FormField "format" "json"]
            ++ parts_loc ++ parts_acc)%list)
  end end end end end end end.

End RequestModel.

(** * Package [awsutil] (awsutil/aws.go) *)

(** The errors this package hands out: the errno values ([fuse.EINVAL] and
    [fuse.ENOENT] are the [syscall] ones), [io.EOF], and the errors of the
    libraries it calls, by their text. *)
Inductive aws_error : Type :=
| EINVAL
| EACCES
| ENOENT
| ENOTSUP
| EAGAIN
| EOF
| LibraryError (text : string).

(** [parseHTTPError] (lines 145-167) *)
Definition parseHTTPError (code : Z) : aws_error :=
  if decide (code = 400) then EINVAL
  else if decide (code = 403) then EACCES
  else if decide (code = 404) then ENOENT
  else if decide (code = 405) then ENOTSUP
  else if decide (code = 500) then EAGAIN
  else EOF.

(** An [http.Request] as this package fills it in. *)
Module Request.
Record t : Type := mk {
  Method : string;
  URL : string;
  Header : list (string * string)
}.
End Request.

Definition StatusPartialContent : Z := 206.

Section HTTP.

(** [http.NewRequest(method, url, nil)] fails on some arguments, and
    [http.DefaultClient.Do] answers a request with an error or a response. *)
Variable NewRequest_error : string → string → option aws_error.
Variable Do : Request.t → aws_error + Response.t.

Definition NewRequest (method url : string) : aws_error + Request.t :=
  match NewRequest_error method url with
  | Some err => inl err
  | None => inr (Request.mk method url [])
  end.

(** [req.Header.Add(key, value)] *)
Definition Header_Add (req : Request.t) (key value : string) : Request.t :=
  Request.mk (Request.Method req) (Request.URL req)
    (Request.Header req ++ [(key, value)]).

(** [HeadObject] (lines 38-48) *)
Definition HeadObject (url : string) : aws_error + Response.t :=
  match NewRequest "HEAD" url with
  | inl err => inl err
  | inr req =>
      match Do req with
      | inl err => inl err
      | inr resp => inr resp
      end
  end.

(** [GetObjectRange] (lines 70-87) *)
Definition GetObjectRange (url byteRange : string) : aws_error + Response.t :=
  match NewRequest "GET" url with
  | inl err => inl err
  | inr req =>
      let req := if decide (byteRange ≠ "")
                 then Header_Add req "Range" byteRange else req in
      match Do req with
      | inl err => inl err
      | inr resp =>
          if decide (Response.StatusCode resp ≠ StatusPartialContent
                     ∧ Response.StatusCode resp ≠ StatusOK)
          then inl (parseHTTPError (Response.StatusCode resp))
          else inr resp
      end
  end.

(** [GetObject] (lines 54-60) *)
Definition GetObject (url : string) : aws_error + Response.t :=
  match GetObjectRange url "" with
  | inl err => inl err
  | inr resp => inr resp
  end.

End HTTP.

(** [strings.Contains]: [substr] occurs in [s]. *)
Fixpoint Contains (s substr : string) : bool :=
  if String.prefix substr s then true
  else match s with
       | "" => false
       | String _ s' => Contains s' substr
       end.

(** [strings.Split(s, sep)] for a separator of one byte: the pieces of [s]
    between the occurrences of [sep]; a string without [sep] is its only
    piece. *)
Fixpoint Split (s : string) (sep : ascii) : list string :=
  match s with
  | "" => [""]
  | String c s' =>
      if decide (c = sep) then "" :: Split s' sep
      else match Split s' sep with
           | piece :: pieces => String c piece :: pieces
           | [] => [String c ""]
           end
  end.

(** What [ReadNgcFile] reads off a parsed [url.URL]. *)
Module URL.
Record t : Type := mk {
  Hostname : string;
  Path : string
}.
End URL.

Section Ngc.

(** [url.Parse], and the S3 read: [svc.GetObject] on a session for the
    region, with bucket and key, fails or yields an object whose body
    [ioutil.ReadAll] reads, to the end or up to an error. *)
Variable url_Parse : string → aws_error + URL.t.
Variable s3_GetObject : string → string → string → aws_error + (string * option aws_error).

Definition invalid_s3_location (path : string) : aws_error :=
  LibraryError
    ("url did not point to a valid amazon s3 location or follow the virtual-hosted style of https://[bucket].[region].s3.amazonzws.com/[file]: "
     +:+ path).

(** [ReadNgcFile] (lines 93-143): the bytes returned ([None] is nil) and the
    error. *)
Definition ReadNgcFile (path : string) : option string * option aws_error :=
  if negb (Contains path "s3.amazonaws.com") then
    (None, Some (invalid_s3_location path))
  else
    match url_Parse path with
    | inl err => (None, Some err)
    | inr u =>
        let sections := Split (URL.Hostname u) "."%char in
        if decide (length sections < 5)%nat then
          (None, Some (invalid_s3_location path))
        else
          let bucket := default "" (sections !! 0%nat) in
          let region := default "" (sections !! 1%nat) in
          let file := URL.Path u in
          match s3_GetObject region bucket file with
          | inl err => (None, Some err)
          | inr (bytes, err) => (Some bytes, err)
          end
    end.

End Ngc.

(** * Command [sracp] (cmd/sracp/main.go) *)

(** [filepath.Ext]: the suffix of [path] that starts at the last dot of its
    last element, empty when that element has no dot. Go scans from the
    right and stops at a separator; the scan from the left keeps in [cand]
    what it would find. *)
Fixpoint Ext_scan (path cand : string) : string :=
  match path with
  | "" => cand
  | String c rest =>
      if decide (c = "/"%char) then Ext_scan rest ""
      else if decide (c = "."%char) then Ext_scan rest path
      else Ext_scan rest cand
  end.

Definition Ext (path : string) : string := Ext_scan path "".

(** [strings.TrimLeft]: [s] without its leading bytes that occur in
    [cutset]. *)
Fixpoint TrimLeft (s cutset : string) : string :=
  match s with
  | "" => ""
  | String c rest =>
      if decide (count_char c cutset ≠ 0)%nat then TrimLeft rest cutset else s
  end.

(** The test of lines 79-85: with [--only] set ([c.IsSet("only")]), a file
    is fetched when its extension is a key of [flags.Types]. *)
Definition wanted {V : Type} (only : bool) (Types : gmap string V) (f : File.t)
    : bool :=
  if only then bool_decide (is_Some (Types !! TrimLeft (Ext (File.Name f)) "."))
  else true.

Section Download.

(** [filepath.Join] *)
Variable Join : list string → string.

(** Lines 87-88: the arguments of the curl command for file [f] of
    accession [v]. *)
Definition curl_args (Path : string) (v : Accession.t) (f : File.t) : list string :=
  ["-o"; Join [Path; Accession.ID v; File.Name f]; File.Link f].

(** Lines 73-94, the body of the loop over the accessions: the curl commands
    run for [v], in the order in which Go happens to walk [v.Files].
    [mkdir_failed] says whether [os.Mkdir] returned an error. *)
Definition download_commands {V : Type} (mkdir_failed only : bool)
    (Types : gmap string V) (Path : string) (v : Accession.t)
    : list (list string) :=
  if mkdir_failed then []
  else
    omap (λ nf, if wanted only Types nf.2 then Some (curl_args Path v nf.2) else None)
         (map_to_list (Accession.Files v)).

End Download.

(** [os.Setenv] on the list that [os.Environ] returns. *)
Definition Setenv (environ : list string) (key value : string) : list string :=
  filter (λ e, String.prefix (key +:+ "=") e = false) environ
  ++ [key +:+ "=" +:+ value].

(** [EnsurePathIsSet] (lines 107-115), on the environment. *)
Definition EnsurePathIsSet (environ : list string) : list string :=
  if existsb (String.prefix "PATH=") environ then environ
  else Setenv environ "PATH"
         "/usr/local/sbin:/usr/local/bin:/usr/sbin:/usr/bin:/sbin:/bin".

(** ** Sample data *)

Definition sample_sprint_File (f : File.t) : string :=
  "{" +:+ File.Name f +:+ " " +:+ File.Size f +:+ " " +:+ pretty (File.ModifiedDate f)
  +:+ " " +:+ File.Md5Hash f +:+ " " +:+ File.Link f +:+ " "
  +:+ pretty (File.ExpirationDate f) +:+ " " +:+ File.Service f +:+ "}".

Definition file (name link : string) : File.t :=
  File.mk name "" 0 "" link 0 "".

(** The scenario of the design document: one identifier resolves, the
    other does not. *)
Definition resolved : Payload.t :=
  Payload.mk "SRR000001" 200 "" [file "a.bam" "http://x/a.bam"].

Definition unresolved : Payload.t :=
  Payload.mk "SRR000002" 404 "no data" [].

Definition scenario : list Payload.t := [resolved; unresolved].

(** Response bodies, as JSON text. *)
Definition jstr (s : string) : string :=
  String "034"%char "" +:+ s +:+ String "034"%char "".

Definition body_resolved : string :=
  "{" +:+ jstr "accession" +:+ ":" +:+ jstr "SRR000001" +:+ ","
  +:+ jstr "status" +:+ ":200," +:+ jstr "files" +:+ ":[{"
  +:+ jstr "name" +:+ ":" +:+ jstr "a.bam" +:+ ","
  +:+ jstr "link" +:+ ":" +:+ jstr "http://x/a.bam" +:+ "}]}".

Definition body_unresolved : string :=
  "{" +:+ jstr "accession" +:+ ":" +:+ jstr "SRR000002" +:+ ","
  +:+ jstr "status" +:+ ":404," +:+ jstr "message" +:+ ":" +:+ jstr "no data" +:+ "}".

Definition body_not_found : string :=
  "{" +:+ jstr "status" +:+ ":404," +:+ jstr "message" +:+ ":"
  +:+ jstr "not found" +:+ "}".

Definition body_scenario : string :=
  "[" +:+ body_resolved +:+ "," +:+ body_unresolved +:+ "]".

Definition body_resolved_only : string := "[" +:+ body_resolved +:+ "]".

(** What [json.Unmarshal] yields on the bodies above (and failure on any
    other text): a stand-in for the decoder, used in the examples only. *)
Definition sample_unmarshal_payloads (bytes : string) : option (list Payload.t) :=
  if decide (bytes = body_scenario) then Some scenario
  else if decide (bytes = body_resolved_only) then Some [resolved]
  else if decide (bytes = "[]") then Some []
  else None.

Definition sample_unmarshal_payload (bytes : string) : option Payload.t :=
  if decide (bytes = body_not_found) then Some (Payload.mk "" 404 "not found" [])
  else if decide (bytes = body_resolved) then Some resolved
  else if decide (bytes = body_unresolved) then Some unresolved
  else None.

Definition json_response (bytes : string) : Response.t :=
  Response.mk 200 "200 OK" "application/json" (Some bytes).

(** The accession that the scenario resolves. *)
Definition resolved_accession : Accession.t :=
  Accession.mk "SRR000001" {[ "a.bam" := file "a.bam" "http://x/a.bam" ]}.

(** Two locations of an ngc file, with and without a region label, and
    stand-ins for [url.Parse] and the S3 read on them. *)
Definition ngc_with_region : string :=
  "https://mybucket.us-east-1.s3.amazonaws.com/prj.ngc".

Definition ngc_without_region : string :=
  "https://mybucket.s3.amazonaws.com/prj.ngc".

Definition sample_url_Parse (path : string) : aws_error + URL.t :=
  if decide (path = ngc_with_region)
  then inr (URL.mk "mybucket.us-east-1.s3.amazonaws.com" "/prj.ngc")
  else if decide (path = ngc_without_region)
  then inr (URL.mk "mybucket.s3.amazonaws.com" "/prj.ngc")
  else inl (LibraryError "parse error").

Definition sample_s3_GetObject (region bucket key : string)
    : aws_error + (string * option aws_error) :=
  inr (region +:+ ":" +:+ bucket +:+ ":" +:+ key, None).

(** A stand-in for [filepath.Join] on elements that need no cleaning. *)
Definition sample_Join (elem : list string) : string := String.concat "/" elem.

(** No call fails while the request is put together. *)
Definition io_ok (op : io_op) : option string := None.

(** ** Vocabulary of the properties *)

Fixpoint concat_str (l : list string) : string :=
  match l with
  | [] => ""
  | s :: l => s +:+ concat_str l
  end.

(** The three values that [sanitize] returns. *)
Definition accs_of (r : gmap string Accession.t * string * option string)
  : gmap string Accession.t := r.1.1.
Definition msg_of (r : gmap string Accession.t * string * option string)
  : string := r.1.2.
Definition err_of (r : gmap string Accession.t * string * option string)
  : option string := r.2.

(** [p] with its file list replaced. *)
Definition with_files (p : Payload.t) (fs : list File.t) : Payload.t :=
  Payload.mk (Payload.ID p) (Payload.Status p) (Payload.Message p) fs.

(** A file that the inner loop keeps: it passes both guards. *)
Definition wellformed (f : File.t) : Prop :=
  File.Link f ≠ "" ∧ File.Name f ≠ "".

Global Instance wellformed_dec f : Decision (wellformed f).
Proof. unfold wellformed. apply _. Defined.

(** The well-formed files of [fs] that are named [n], in order. *)
Definition named (n : string) (fs : list File.t) : list File.t :=
  filter (λ f, wellformed f ∧ File.Name f = n) fs.

(** The file map after upserting, in order, the well-formed files of [fs]. *)
Definition merge_files (m : gmap string File.t) (fs : list File.t)
    : gmap string File.t :=
  foldl (λ m f, if decide (wellformed f) then <[File.Name f := f]> m else m) m fs.

(** Entry [p] is a successful entry for identifier [k]. *)
Definition succeeded (k : string) (p : Payload.t) : Prop :=
  Payload.Status p = StatusOK ∧ Payload.ID p = k.

Global Instance succeeded_dec k p : Decision (succeeded k p).
Proof. unfold succeeded. apply _. Defined.

Definition failed (p : Payload.t) : Prop := Payload.Status p ≠ StatusOK.

Global Instance failed_dec p : Decision (failed p).
Proof. unfold failed. apply _. Defined.

(** All files, in response order, of the successful entries for [k]. *)
Definition files_for (k : string) (payload : list Payload.t) : list File.t :=
  concat (Payload.Files <$> filter (succeeded k) payload).

(** The invariant of the result map (keys agree with the stored names,
    stored files have a link). *)
Definition manifest_ok (k : string) (a : Accession.t) : Prop :=
  Accession.ID a = k ∧
  ∀ n f, Accession.Files a !! n = Some f → File.Name f = n ∧ File.Link f ≠ "".

Definition result_ok (m : gmap string Accession.t) : Prop :=
  ∀ k a, m !! k = Some a → manifest_ok k a.

(** How two accessions of one identifier combine when a later part of the
    response is reconciled after an earlier one. *)
Definition merge_accession (later earlier : Accession.t) : option Accession.t :=
  Some (Accession.mk (Accession.ID earlier)
          (Accession.Files later ∪ Accession.Files earlier)).

(** References are well-formed: stored under their own identifier, pointing
    into the heap, and no file map is shared between two identifiers. *)
Definition ref_ok (st : ref_state) : Prop :=
  (∀ k a, raccs st !! k = Some a →
     AccessionRef.ID a = k ∧ (AccessionRef.Files a < length (heap st))%nat) ∧
  (∀ k1 k2 a1 a2, raccs st !! k1 = Some a1 → raccs st !! k2 = Some a2 →
     AccessionRef.Files a1 = AccessionRef.Files a2 → k1 = k2).

(** The two error texts of the decoding step of [ResolveNames]. *)
Definition could_not_read : string :=
  "fatal error when trying to read response from Name Resolver API".

Definition api_error (e : Payload.t) : string :=
  "encountered error from Name Resolver API: "
  +:+ pretty (Payload.Status e) +:+ ": " +:+ Payload.Message e.

(** The response passes the checks made before its body is decoded. *)
Definition reaches_decoding (resp : Response.t) (bytes : string) : Prop :=
  Response.StatusCode resp = 200%Z ∧
  Response.ContentType resp = "application/json" ∧
  Response.Body resp = Some bytes.

Section Lines.

Variable sprint_File : File.t → string.

(** The texts that the four [Sprintf] calls of [sanitize] produce. *)
Definition status_line (p : Payload.t) : string :=
  "issue with accession " +:+ Payload.ID p +:+ ": " +:+ Payload.Message p +:+ nl.

Definition status_record (p : Payload.t) : string :=
  Payload.ID p +:+ ": " +:+ pretty (Payload.Status p) +:+ tab +:+ Payload.Message p.

Definition no_link_line (id : string) (f : File.t) : string :=
  "issue with accession " +:+ id +:+ ": API returned no link for "
  +:+ File.Name f +:+ nl.

Definition no_name_line (id : string) (f : File.t) : string :=
  "issue with accession " +:+ id +:+ ": API returned no name for "
  +:+ sprint_File f +:+ nl.

(** What one file, one entry add to [msg]; what one entry adds to [errmsg]. *)
Definition file_msg (id : string) (f : File.t) : string :=
  if decide (File.Link f = "") then no_link_line id f
  else if decide (File.Name f = "") then no_name_line id f
  else "".

Definition payload_msg (p : Payload.t) : string :=
  if decide (failed p) then status_line p
  else concat_str (file_msg (Payload.ID p) <$> Payload.Files p).

End Lines.

(** * Properties *)

Section Properties.

Variable sprint_File : File.t → string.

Local Abbreviation Sprintf := (Sprintf sprint_File).
Local Abbreviation file_step := (file_step sprint_File).
Local Abbreviation payload_step := (payload_step sprint_File).
Local Abbreviation sanitize_loop := (sanitize_loop sprint_File).
Local Abbreviation sanitize := (sanitize sprint_File).
Local Abbreviation no_name_line := (no_name_line sprint_File).
Local Abbreviation file_msg := (file_msg sprint_File).
Local Abbreviation payload_msg := (payload_msg sprint_File).
Local Abbreviation file_step_ref := (file_step_ref sprint_File).
Local Abbreviation payload_step_ref := (payload_step_ref sprint_File).
Local Abbreviation sanitize_ref := (sanitize_ref sprint_File).

(** *** Strings *)

Lemma append_assoc (s1 s2 s3 : string) : (s1 +:+ s2) +:+ s3 = s1 +:+ s2 +:+ s3.
Proof. induction s1 as [|c s1 IH]; [done|].
change (String c ((s1 +:+ s2) +:+ s3) = String c (s1 +:+ s2 +:+ s3)).
by rewrite IH.
Qed.

Lemma append_nil_r (s : string) : s +:+ "" = s.
Proof. induction s as [|c s IH]; [done|].
change (String c (s +:+ "") = String c s). by rewrite IH.
Qed.

Lemma append_eq_nil (s1 s2 : string) : s1 +:+ s2 = "" → s1 = "" ∧ s2 = "".
Proof.
destruct s1 as [|c s1]; [done|].
change (String c (s1 +:+ s2) = "" → String c s1 = "" ∧ s2 = ""). discriminate.
Qed.

Lemma concat_str_app (l1 l2 : list string) :
  concat_str (l1 ++ l2) = concat_str l1 +:+ concat_str l2.
Proof.
  induction l1 as [|s l1 IH]; [done|]. cbn [app concat_str]. by rewrite IH, append_assoc.
Qed.

(** *** The formatted lines *)

Lemma Sprintf_status_line p :
  Sprintf ("issue with accession %s: %s" +:+ nl)
    [ArgS (Payload.ID p); ArgS (Payload.Message p)] = status_line p.
Proof. reflexivity. Qed.

Lemma Sprintf_status_record p :
  Sprintf ("%s: %d" +:+ tab +:+ "%s")
    [ArgS (Payload.ID p); ArgD (Payload.Status p); ArgS (Payload.Message p)]
  = status_record p.
Proof.
  transitivity (Payload.ID p +:+ ": " +:+ pretty (Payload.Status p) +:+ tab
              +:+ Payload.Message p +:+ ""); [reflexivity|].
by rewrite append_nil_r.
Qed.

Lemma Sprintf_no_link id f :
  Sprintf ("issue with accession %s: API returned no link for %s" +:+ nl)
    [ArgS id; ArgS (File.Name f)] = no_link_line id f.
Proof. reflexivity. Qed.

Lemma Sprintf_no_name id f :
  Sprintf ("issue with accession %s: API returned no name for %s" +:+ nl)
    [ArgS id; ArgFile f] = no_name_line id f.
Proof. reflexivity. Qed.

Lemma Sprintf_no_accessions e :
  Sprintf ("API returned no mountable accessions" +:+ nl +:+ "%s") [ArgS e]
  = "API returned no mountable accessions" +:+ nl +:+ e.
Proof.
transitivity ("API returned no mountable accessions" +:+ nl +:+ e +:+ "");
  [reflexivity|].
by rewrite append_nil_r.
Qed.

(** *** The inner loop *)

Lemma file_loop id m s fs :
  foldl (file_step id) (m, s) fs
  = (merge_files m fs, s +:+ concat_str (file_msg id <$> fs)).
Proof.
revert m s; induction fs as [|f fs IH]; intros m s.
{ cbn. by rewrite append_nil_r. }
cbn [foldl fmap list_fmap concat_str]. unfold merge_files; cbn [foldl].
fold (merge_files (if decide (wellformed f) then <[File.Name f:=f]> m else m) fs).
unfold file_step at 2, file_msg at 1, wellformed at 1.
destruct (decide (File.Link f = "")) as [Hl|Hl].
{ rewrite Sprintf_no_link, IH, append_assoc.
  rewrite decide_False by (intros [? ?]; done). done. }
destruct (decide (File.Name f = "")) as [Hn|Hn].
{ rewrite Sprintf_no_name, IH, append_assoc.
  rewrite decide_False by (intros [? ?]; done). done. }
rewrite IH, decide_True by done. done.
Qed.

Lemma merge_files_app m fs1 fs2 :
  merge_files m (fs1 ++ fs2) = merge_files (merge_files m fs1) fs2.
Proof. apply foldl_app. Qed.

Lemma merge_files_cons m f fs :
  merge_files m (f :: fs)
  = merge_files (if decide (wellformed f) then <[File.Name f:=f]> m else m) fs.
Proof. reflexivity. Qed.

(** Upserting into [m] is the union, biased towards the new files. *)
Lemma merge_files_union m fs : merge_files m fs = merge_files ∅ fs ∪ m.
Proof.
revert m; induction fs as [|f fs IH]; intros m.
{ unfold merge_files; cbn. by rewrite (left_id_L ∅ (∪)). }
rewrite !merge_files_cons. destruct (decide (wellformed f)); [|done].
rewrite IH, (IH (<[_:=_]> ∅)).
by rewrite insert_empty, insert_union_singleton_l, (assoc_L (∪)).
Qed.

Lemma merge_files_ok k m fs :
  manifest_ok k (Accession.mk k m) → manifest_ok k (Accession.mk k (merge_files m fs)).
Proof.
revert m; induction fs as [|f fs IH]; intros m Hm; [done|].
rewrite merge_files_cons. apply IH.
destruct (decide (wellformed f)) as [[Hl Hn]|]; [|done].
split; [done|]. intros n g. cbn. rewrite lookup_insert.
case_decide; [|by apply Hm]. naive_solver.
Qed.

(** *** One iteration of the outer loop *)

Lemma step_failed st p :
  failed p →
  payload_step st p
  = {| accs := accs st;
       msg := msg st +:+ status_line p;
       errmsg := errmsg st +:+ status_record p |}.
Proof.
intros Hp. unfold payload_step. rewrite decide_True by done.
by rewrite Sprintf_status_line, Sprintf_status_record.
Qed.

Lemma step_succeeded st p :
  ¬ failed p →
  payload_step st p
  = let acc := default (Accession.mk (Payload.ID p) ∅) (accs st !! Payload.ID p) in
    {| accs := <[Accession.ID acc :=
                   Accession.mk (Accession.ID acc)
                     (merge_files (Accession.Files acc) (Payload.Files p))]> (accs st);
       msg := msg st +:+ concat_str (file_msg (Payload.ID p) <$> Payload.Files p);
       errmsg := errmsg st |}.
Proof.
intros Hp. unfold payload_step. rewrite decide_False by done.
destruct (accs st !! Payload.ID p) as [a|]; cbn; by rewrite file_loop.
Qed.

Lemma step_msg st p : msg (payload_step st p) = msg st +:+ payload_msg p.
Proof.
unfold payload_msg. destruct (decide (failed p)) as [Hp|Hp].
- by rewrite step_failed.
- by rewrite step_succeeded.
Qed.

Lemma step_errmsg st p :
  errmsg (payload_step st p)
  = errmsg st +:+ (if decide (failed p) then status_record p else "").
Proof.
destruct (decide (failed p)) as [Hp|Hp].
- by rewrite step_failed.
- rewrite step_succeeded by done. cbn. by rewrite append_nil_r.
Qed.

Lemma step_lookup st p k :
  result_ok (accs st) →
  accs (payload_step st p) !! k
  = if decide (succeeded k p)
    then Some (Accession.mk k
                 (merge_files (from_option Accession.Files ∅ (accs st !! k))
                    (Payload.Files p)))
    else accs st !! k.
Proof.
intros Hok. destruct (decide (failed p)) as [Hp|Hp].
{ rewrite step_failed by done. cbn.
  rewrite decide_False; [done|]. by intros [? _]. }
rewrite step_succeeded by done. cbn.
assert (Accession.ID (default (Accession.mk (Payload.ID p) ∅)
          (accs st !! Payload.ID p)) = Payload.ID p) as ->.
{ destruct (accs st !! Payload.ID p) as [a|] eqn:Ha; [|done].
  by destruct (Hok _ _ Ha). }
rewrite lookup_insert. unfold succeeded.
destruct (decide (Payload.ID p = k)) as [<-|Hne].
- rewrite decide_True.
  + by destruct (accs st !! Payload.ID p).
  + split; [|done]. unfold failed in Hp. by destruct (decide (Payload.Status p = StatusOK)).
- rewrite decide_False; [done|]. by intros [_ ?].
Qed.

Lemma step_result_ok st p :
  result_ok (accs st) → result_ok (accs (payload_step st p)).
Proof.
intros Hok k a. rewrite step_lookup by done.
case_decide; [|by apply Hok]. intros [= <-].
apply merge_files_ok.
destruct (accs st !! k) as [a|] eqn:Ha; cbn.
- destruct (Hok _ _ Ha) as [? ?]. by split.
- split; [done|]. intros n f. cbn. by rewrite lookup_empty.
Qed.

(** *** The whole loop, from any state *)

Lemma loop_result_ok st payload :
  result_ok (accs st) → result_ok (accs (foldl payload_step st payload)).
Proof.
revert st; induction payload as [|p payload IH]; intros st Hok; [done|].
cbn. by apply IH, step_result_ok.
Qed.

Lemma loop_msg st payload :
  msg (foldl payload_step st payload)
  = msg st +:+ concat_str (payload_msg <$> payload).
Proof.
revert st; induction payload as [|p payload IH]; intros st; cbn.
- by rewrite append_nil_r.
- by rewrite IH, step_msg, append_assoc.
Qed.

Lemma loop_errmsg st payload :
  errmsg (foldl payload_step st payload)
  = errmsg st +:+ concat_str (status_record <$> filter failed payload).
Proof.
revert st; induction payload as [|p payload IH]; intros st.
- cbn. by rewrite append_nil_r.
- cbn [foldl]. rewrite IH, step_errmsg, append_assoc, filter_cons.
  destruct (decide (failed p)); [done|]. reflexivity.
Qed.

Lemma files_for_cons k p payload :
  files_for k (p :: payload)
  = ((if decide (succeeded k p) then Payload.Files p else []) ++ files_for k payload)%list.
Proof.
unfold files_for. rewrite filter_cons. by destruct (decide (succeeded k p)).
Qed.

Lemma loop_lookup st payload k :
  result_ok (accs st) →
  accs (foldl payload_step st payload) !! k
  = match accs st !! k with
    | Some a => Some (Accession.mk k (merge_files (Accession.Files a) (files_for k payload)))
    | None =>
        if decide (Exists (succeeded k) payload)
        then Some (Accession.mk k (merge_files ∅ (files_for k payload)))
        else None
    end.
Proof.
revert st; induction payload as [|p payload IH]; intros st Hok.
{ cbn. destruct (accs st !! k) as [a|] eqn:Ha.
  - destruct (Hok _ _ Ha) as [<- _]. clear Ha. destruct a; reflexivity.
  - rewrite decide_False; [done|]. by intros ?%Exists_nil. }
cbn [foldl]. rewrite IH by by apply step_result_ok.
rewrite step_lookup, files_for_cons by done.
destruct (decide (succeeded k p)) as [Hs|Hs].
- destruct (accs st !! k) as [a|]; cbn.
  + by rewrite merge_files_app.
  + rewrite decide_True by by apply Exists_cons_hd.
    by rewrite merge_files_app.
- cbn [app]. destruct (accs st !! k) as [a|]; [done|].
  apply decide_ext. rewrite Exists_cons. tauto.
Qed.

(** *** [sanitize] as a whole *)

Lemma result_ok_empty : result_ok ∅.
Proof. intros k a. by rewrite lookup_empty. Qed.

Lemma sanitize_lookup payload k :
  accs_of (sanitize payload) !! k
  = if decide (Exists (succeeded k) payload)
    then Some (Accession.mk k (merge_files ∅ (files_for k payload)))
    else None.
Proof.
unfold accs_of, sanitize, sanitize_loop; cbn [fst].
rewrite loop_lookup by apply result_ok_empty. cbn. by rewrite lookup_empty.
Qed.

Lemma sanitize_msg payload :
  msg_of (sanitize payload) = concat_str (payload_msg <$> payload).
Proof.
unfold msg_of, sanitize, sanitize_loop; cbn [fst snd]. by rewrite loop_msg.
Qed.

Lemma sanitize_err payload :
  err_of (sanitize payload)
  = if decide (accs_of (sanitize payload) = ∅)
    then Some ("API returned no mountable accessions" +:+ nl
               +:+ concat_str (status_record <$> filter failed payload))
    else None.
Proof.
unfold err_of, accs_of, sanitize, sanitize_loop; cbn [fst snd].
rewrite Sprintf_no_accessions, loop_errmsg. cbn [errmsg sanitize_init].
destruct (decide (accs _ = ∅)) as [He|He].
- rewrite decide_True; [done|]. rewrite He, map_size_empty. lia.
- rewrite decide_False; [done|]. intros Hlt. apply He, map_size_empty_iff. lia.
Qed.

Lemma sanitize_empty_iff payload :
  accs_of (sanitize payload) = ∅ ↔ Forall failed payload.
Proof.
split.
- intros He. apply Forall_forall. intros p Hp Hs.
  assert (accs_of (sanitize payload) !! Payload.ID p = None) as Hk
    by by rewrite He, lookup_empty.
  rewrite sanitize_lookup in Hk. rewrite decide_True in Hk; [done|].
  apply Exists_exists. exists p. split; [done|]. split; [|done].
  unfold failed in Hs. by destruct (decide (Payload.Status p = StatusOK)).
- intros Hall. apply map_eq. intros k. rewrite sanitize_lookup, lookup_empty.
  rewrite decide_False; [done|]. rewrite Exists_exists. intros (p & Hp & Hs & _).
  rewrite Forall_forall in Hall. by apply (Hall p Hp).
Qed.

(** C1. [sanitize] returns an error exactly when the map it built is empty;
    that error is the fixed text followed by the accumulated trail, one
    record (identifier, status, message) per entry whose status is not 200,
    in response order; with a non-empty map no error is returned, whatever
    was accumulated. *)
Theorem sanitize_error_iff_empty (payload : list Payload.t) :
  (err_of (sanitize payload) ≠ None ↔ accs_of (sanitize payload) = ∅) ∧
  (accs_of (sanitize payload) = ∅ →
     err_of (sanitize payload)
     = Some ("API returned no mountable accessions" +:+ nl
             +:+ concat_str (status_record <$> filter failed payload))) ∧
  (accs_of (sanitize payload) ≠ ∅ → err_of (sanitize payload) = None).
Proof.
rewrite sanitize_err.
destruct (decide (accs_of (sanitize payload) = ∅)) as [He|He]; naive_solver.
Qed.

(** C2, amended. When the list is not empty and every entry has a status
    other than 200, the call fails with an error and both diagnostic texts
    (the message and the trail inside the error) are non-empty. *)
Theorem sanitize_all_failed (payload : list Payload.t) :
  payload ≠ [] →
  Forall failed payload →
  accs_of (sanitize payload) = ∅ ∧
  msg_of (sanitize payload) ≠ "" ∧
  ∃ trail,
    trail ≠ "" ∧
    err_of (sanitize payload)
    = Some ("API returned no mountable accessions" +:+ nl +:+ trail).
Proof.
intros Hne Hall. destruct payload as [|p payload]; [done|].
assert (failed p) as Hp by by inversion Hall.
assert (accs_of (sanitize (p :: payload)) = ∅) as He by by apply sanitize_empty_iff.
split; [done|]. split.
- rewrite sanitize_msg. cbn [fmap list_fmap concat_str].
  unfold payload_msg at 1. rewrite decide_True by done.
  intros [H _]%append_eq_nil. discriminate H.
- eexists. split; [|by rewrite sanitize_err, decide_True].
  rewrite filter_cons, decide_True by done. cbn [fmap list_fmap concat_str].
  intros [H _]%append_eq_nil. unfold status_record in H.
  apply append_eq_nil in H as [_ H]. discriminate H.
Qed.


(** *** The loop with references computes the same *)

Lemma file_loop_ref id l h s fs :
  foldl (file_step_ref id l) (h, s) fs
  = (alter (λ m, merge_files m fs) l h, s +:+ concat_str (file_msg id <$> fs)).
Proof.
revert h s; induction fs as [|f fs IH]; intros h s.
{ cbn. rewrite append_nil_r. f_equal. symmetry. by apply list_alter_id. }
cbn [foldl fmap list_fmap concat_str].
unfold file_step_ref at 2, file_msg at 1.
destruct (decide (File.Link f = "")) as [Hl|Hl].
{ rewrite Sprintf_no_link, IH, append_assoc. f_equal.
  apply list_alter_ext; [|done]. intros m _.
  by rewrite merge_files_cons, decide_False by (by intros [? _]). }
destruct (decide (File.Name f = "")) as [Hn|Hn].
{ rewrite Sprintf_no_name, IH, append_assoc. f_equal.
  apply list_alter_ext; [|done]. intros m _.
  by rewrite merge_files_cons, decide_False by (by intros [_ ?]). }
rewrite IH, list_alter_alter_eq. f_equal.
apply list_alter_ext; [|done]. intros m _. unfold compose.
by rewrite merge_files_cons, decide_True.
Qed.

Lemma ref_ok_init : ref_ok sanitize_ref_init.
Proof.
split.
- intros k a. cbn. by rewrite lookup_empty.
- intros k1 k2 a1 a2. cbn. by rewrite lookup_empty.
Qed.

Lemma step_ref_succeeded st p :
  ¬ failed p →
  payload_step_ref st p
  = let acc := default (AccessionRef.mk (Payload.ID p) (length (heap st)))
                 (raccs st !! Payload.ID p) in
    let h := match raccs st !! Payload.ID p with
             | Some _ => heap st
             | None => (heap st ++ [∅])%list
             end in
    {| heap := alter (λ m, merge_files m (Payload.Files p)) (AccessionRef.Files acc) h;
       raccs := <[AccessionRef.ID acc := acc]> (raccs st);
       rmsg := rmsg st +:+ concat_str (file_msg (Payload.ID p) <$> Payload.Files p);
       rerrmsg := rerrmsg st |}.
Proof.
intros Hp. unfold payload_step_ref. rewrite decide_False by done.
destruct (raccs st !! Payload.ID p) as [a|]; cbn; by rewrite file_loop_ref.
Qed.

Lemma ref_ok_step st p : ref_ok st → ref_ok (payload_step_ref st p).
Proof.
intros [Hid Hinj]. destruct (decide (failed p)) as [Hp|Hp].
{ unfold payload_step_ref. rewrite decide_True by done. by split. }
rewrite step_ref_succeeded by done.
destruct (raccs st !! Payload.ID p) as [a|] eqn:Ha; cbn.
- destruct (Hid _ _ Ha) as [Hida Hlt].
  rewrite Hida, (insert_id _ _ _ Ha). split.
  + intros k b Hb. cbn in *. rewrite length_alter. by apply Hid.
  + done.
- split.
  + intros k b. cbn. rewrite length_alter, length_app, lookup_insert. cbn.
    case_decide as Hk.
    * intros [= <-]. cbn. split; [done|lia].
    * intros Hb. destruct (Hid _ _ Hb). split; [done|lia].
  + intros k1 k2 b1 b2. cbn. rewrite !lookup_insert.
    repeat case_decide; subst.
    * done.
    * intros [= <-] Hb. cbn. destruct (Hid _ _ Hb). lia.
    * intros Hb [= <-]. cbn. destruct (Hid _ _ Hb). lia.
    * apply Hinj.
Qed.

Lemma view_step st p :
  ref_ok st → view (payload_step_ref st p) = payload_step (view st) p.
Proof.
intros [Hid Hinj]. destruct (decide (failed p)) as [Hp|Hp].
{ unfold payload_step_ref, payload_step.
  by rewrite !decide_True by done. }
rewrite step_ref_succeeded, step_succeeded by done.
unfold view at 1. cbn [heap raccs rmsg rerrmsg accs msg errmsg view].
rewrite lookup_omap.
destruct (raccs st !! Payload.ID p) as [a|] eqn:Ha; cbn [default mbind option_bind].
- destruct (Hid _ _ Ha) as [Hida Hlt].
  destruct (lookup_lt_is_Some_2 _ _ Hlt) as [m Hm].
  unfold deref at 2. rewrite Hm. cbn. f_equal.
  apply map_eq. intros k. rewrite lookup_omap, !lookup_insert.
  case_decide as Hk.
  + cbn. unfold deref. by rewrite list_lookup_alter_eq, Hm.
  + rewrite lookup_omap. destruct (raccs st !! k) as [b|] eqn:Hb; [|done].
    cbn. unfold deref. rewrite list_lookup_alter_ne; [done|].
    intros Heq. apply Hk. rewrite Hida. by apply (Hinj _ _ _ _ Ha Hb).
- f_equal. apply map_eq. intros k. rewrite lookup_omap, !lookup_insert. cbn.
  case_decide as Hk.
  + cbn. unfold deref. cbn.
    by rewrite list_lookup_alter_eq, list_lookup_middle.
  + rewrite lookup_omap. destruct (raccs st !! k) as [b|] eqn:Hb; [|done].
    cbn. unfold deref. destruct (Hid _ _ Hb) as [_ Hlt].
    rewrite list_lookup_alter_ne by lia. by rewrite lookup_app_l.
Qed.

Lemma view_loop st payload :
  ref_ok st →
  ref_ok (foldl payload_step_ref st payload) ∧
  view (foldl payload_step_ref st payload) = foldl payload_step (view st) payload.
Proof.
revert st; induction payload as [|p payload IH]; intros st Hok; [done|].
cbn [foldl]. rewrite <- view_step by done. by apply IH, ref_ok_step.
Qed.

(** The value-passing [sanitize] and the one with map references agree. *)
Lemma sanitize_ref_sanitize payload : sanitize_ref payload = sanitize payload.
Proof.
unfold sanitize_ref, sanitize, sanitize_loop.
destruct (view_loop sanitize_ref_init payload ref_ok_init) as [[Hid _] Hv].
change (foldl payload_step sanitize_init payload)
  with (foldl payload_step (view sanitize_ref_init) payload).
rewrite <- Hv. cbn [view accs msg errmsg]. f_equal.
apply decide_ext.
set (st := foldl payload_step_ref sanitize_ref_init payload) in *.
assert (raccs st = ∅ ↔ omap (deref (heap st)) (raccs st) = ∅) as Hiff.
{ split; [intros ->; apply omap_empty|]. intros He. apply map_eq. intros k.
  rewrite lookup_empty. destruct (raccs st !! k) as [a|] eqn:Ha; [|done].
  assert (omap (deref (heap st)) (raccs st) !! k = None) as Hk
    by by rewrite He, lookup_empty.
  rewrite lookup_omap, Ha in Hk. cbn in Hk. unfold deref in Hk.
  destruct (Hid _ _ Ha) as [_ Hlt].
  destruct (lookup_lt_is_Some_2 _ _ Hlt) as [m Hm]. by rewrite Hm in Hk. }
by rewrite !Nat.lt_1_r, !map_size_empty_iff.
Qed.

(** *** Merging, name by name *)

Lemma merge_files_lookup m fs n :
  merge_files m fs !! n
  = match last (named n fs) with Some f => Some f | None => m !! n end.
Proof.
revert m; induction fs as [|f fs IH]; intros m; [done|].
rewrite merge_files_cons, IH. unfold named. rewrite filter_cons.
destruct (decide (wellformed f)) as [Hw|Hw].
- destruct (decide (File.Name f = n)) as [Hn|Hn].
  + rewrite decide_True by done. rewrite last_cons.
    destruct (last (filter _ fs)); [done|]. by rewrite Hn, lookup_insert_eq.
  + rewrite decide_False by (by intros [_ ?]).
    destruct (last (filter _ fs)); [done|]. by rewrite lookup_insert_ne.
- by rewrite decide_False by (by intros [? _]).
Qed.

Lemma merge_files_skip m fs1 f fs2 :
  ¬ wellformed f → merge_files m (fs1 ++ f :: fs2) = merge_files m (fs1 ++ fs2).
Proof.
intros Hf. by rewrite !merge_files_app, merge_files_cons, decide_False.
Qed.

Lemma files_for_app k l1 l2 :
  files_for k (l1 ++ l2) = (files_for k l1 ++ files_for k l2)%list.
Proof. unfold files_for. by rewrite filter_app, fmap_app, concat_app. Qed.

Lemma files_for_none k l : ¬ Exists (succeeded k) l → files_for k l = [].
Proof.
induction l as [|p l IH]; intros Hno; [done|].
rewrite files_for_cons, decide_False, IH; [done| |].
- intros ?. apply Hno. by apply Exists_cons_tl.
- intros ?. apply Hno. by apply Exists_cons_hd.
Qed.

(** The map that the loop builds does not depend on the texts gathered. *)
Lemma loop_accs_ext st st' payload :
  result_ok (accs st) → accs st = accs st' →
  accs (foldl payload_step st payload) = accs (foldl payload_step st' payload).
Proof.
intros Hok Heq. apply map_eq. intros k.
rewrite !loop_lookup by (by rewrite <- ?Heq). by rewrite Heq.
Qed.

Lemma merge_files_app_union fs1 fs2 :
  merge_files ∅ (fs1 ++ fs2) = merge_files ∅ fs2 ∪ merge_files ∅ fs1.
Proof. by rewrite merge_files_app, (merge_files_union (merge_files ∅ fs1)). Qed.

(** C4, amended. With two status-200 entries [p1], [p2] for identifier [k]
    (in this order) the result holds one accession for [k]: it sits under
    key [k], no other key stores an accession with that [ID], and its file
    map is the union of the well-formed files of all the status-200 entries
    for [k], a later entry's file (and within an entry the later file) being
    kept where a name occurs more than once. When [p1] and [p2] are the only
    status-200 entries for [k], that is the union of the files of both, the
    file of [p2] being kept on a collision. *)
Theorem sanitize_merges_duplicates
    (l1 l2 l3 : list Payload.t) (p1 p2 : Payload.t) (k : string) :
  succeeded k p1 → succeeded k p2 →
  let payload := (l1 ++ p1 :: l2 ++ p2 :: l3)%list in
  let result := accs_of (sanitize payload) in
  let files := (files_for k l1 ++ Payload.Files p1 ++ files_for k l2
                ++ Payload.Files p2 ++ files_for k l3)%list in
  ∃ a,
    result !! k = Some a ∧
    Accession.ID a = k ∧
    (∀ k' a', result !! k' = Some a' → Accession.ID a' = k → k' = k) ∧
    files_for k payload = files ∧
    Accession.Files a
    = merge_files ∅ (files_for k l3) ∪
      (merge_files ∅ (Payload.Files p2) ∪
       (merge_files ∅ (files_for k l2) ∪
        (merge_files ∅ (Payload.Files p1) ∪ merge_files ∅ (files_for k l1)))) ∧
    (∀ n, Accession.Files a !! n = last (named n files)) ∧
    (¬ Exists (succeeded k) l1 → ¬ Exists (succeeded k) l2 →
     ¬ Exists (succeeded k) l3 →
       Accession.Files a
       = merge_files ∅ (Payload.Files p2) ∪ merge_files ∅ (Payload.Files p1) ∧
       ∀ n, Accession.Files a !! n
            = match last (named n (Payload.Files p2)) with
              | Some f => Some f
              | None => last (named n (Payload.Files p1))
              end).
Proof.
intros H1 H2 payload result files.
assert (files_for k payload = files) as Hfiles.
{ unfold payload, files.
  rewrite files_for_app, files_for_cons, files_for_app, files_for_cons.
  by rewrite !decide_True by done. }
exists (Accession.mk k (merge_files ∅ files)).
split; [|split; [|split; [|split; [|split; [|split]]]]].
- unfold result. rewrite sanitize_lookup, decide_True; [by rewrite Hfiles|].
  apply Exists_app. right. by apply Exists_cons_hd.
- done.
- intros k' a' Ha' Hid.
  pose proof (loop_result_ok sanitize_init payload result_ok_empty) as Hinv.
  destruct (Hinv k' a' Ha') as [Hk _]. congruence.
- done.
- cbn. unfold files. rewrite !merge_files_app_union.
  by rewrite !(assoc_L (∪)).
- intros n. cbn. rewrite merge_files_lookup, lookup_empty.
  by destruct (last (named n files)).
- intros Hl1 Hl2 Hl3. cbn. unfold files.
  rewrite !files_for_none by done. cbn [app]. rewrite app_nil_r. split.
  + apply merge_files_app_union.
  + intros n. rewrite merge_files_lookup. unfold named.
    rewrite filter_app, last_app, lookup_empty.
    destruct (last (filter _ (Payload.Files p2))); [done|].
    by destruct (last (filter _ (Payload.Files p1))).
Qed.

(** *** Entries that are skipped, files that are skipped *)

Lemma not_failed p : Payload.Status p = 200%Z → ¬ failed p.
Proof. intros Hp Hf. by apply Hf. Qed.

Lemma step_with_files st p fs :
  Payload.Status p = 200%Z → result_ok (accs st) →
  payload_step st (with_files p fs)
  = {| accs := <[Payload.ID p :=
                   Accession.mk (Payload.ID p)
                     (merge_files
                        (from_option Accession.Files ∅ (accs st !! Payload.ID p)) fs)]>
                 (accs st);
       msg := msg st +:+ concat_str (file_msg (Payload.ID p) <$> fs);
       errmsg := errmsg st |}.
Proof.
intros Hp Hok. rewrite step_succeeded by by apply not_failed. cbn.
destruct (accs st !! Payload.ID p) as [a|] eqn:Ha; cbn; [|done].
by destruct (Hok _ _ Ha) as [-> _].
Qed.

Lemma payload_msg_with_files p fs :
  Payload.Status p = 200%Z →
  payload_msg (with_files p fs) = concat_str (file_msg (Payload.ID p) <$> fs).
Proof. intros Hp. unfold payload_msg. by rewrite decide_False by by apply not_failed. Qed.

Lemma sanitize_loop_snoc l p :
  sanitize_loop (l ++ [p]) = payload_step (sanitize_loop l) p.
Proof. unfold sanitize_loop. by rewrite foldl_snoc. Qed.

Lemma sanitize_loop_ok l : result_ok (accs (sanitize_loop l)).
Proof. apply loop_result_ok, result_ok_empty. Qed.

(** C5, amended. Processing an entry whose status is not 200 leaves the map
    as it is and appends one line, naming the identifier and the message, to
    the message; the final map is the one obtained without the entry, so the
    entry's identifier is a key exactly when another entry for it has
    status 200. *)
Theorem failed_entry_is_skipped (l1 l2 : list Payload.t) (p : Payload.t) :
  Payload.Status p ≠ 200%Z →
  accs (sanitize_loop (l1 ++ [p])) = accs (sanitize_loop l1) ∧
  msg (sanitize_loop (l1 ++ [p])) = msg (sanitize_loop l1) +:+ status_line p ∧
  accs_of (sanitize (l1 ++ p :: l2)) = accs_of (sanitize (l1 ++ l2)) ∧
  (Payload.ID p ∈ dom (accs_of (sanitize (l1 ++ p :: l2)))
   ↔ ∃ q, q ∈ (l1 ++ l2)%list ∧ Payload.ID q = Payload.ID p
          ∧ Payload.Status q = 200%Z) ∧
  msg_of (sanitize (l1 ++ p :: l2))
  = msg_of (sanitize l1) +:+ status_line p +:+ concat_str (payload_msg <$> l2).
Proof.
intros Hp. assert (failed p) as Hf by done.
assert (∀ k, ¬ succeeded k p) as Hns by (by intros k [? _]).
assert (accs_of (sanitize (l1 ++ p :: l2)) = accs_of (sanitize (l1 ++ l2))) as Heq.
{ apply map_eq. intros k. rewrite !sanitize_lookup.
  rewrite !files_for_app, files_for_cons, (decide_False (P := succeeded k p)) by done.
  cbn [app].
  rewrite (decide_ext (Exists (succeeded k) (l1 ++ p :: l2))
             (Exists (succeeded k) (l1 ++ l2))); [done|].
  rewrite !Exists_app, Exists_cons. specialize (Hns k). tauto. }
split; [|split; [|split; [|split]]].
- by rewrite sanitize_loop_snoc, step_failed.
- by rewrite sanitize_loop_snoc, step_failed.
- done.
- rewrite Heq, elem_of_dom, sanitize_lookup, <- (Exists_exists (λ q, _ ∧ _)).
  unfold succeeded, StatusOK.
  destruct (decide (Exists _ (l1 ++ l2))) as [He|He].
  + split; [intros _|by eexists].
    eapply Exists_impl; [exact He|]. by intros q [? ?].
  + split; [by intros [? ?]|]. intros He'. exfalso. apply He.
    eapply Exists_impl; [exact He'|]. by intros q [? ?].
- rewrite !sanitize_msg, fmap_app, concat_str_app. cbn [fmap list_fmap concat_str].
  unfold payload_msg at 2. by rewrite decide_True by done.
Qed.

(** C6. In a status-200 entry, a file with an empty link appends one line
    and is skipped; otherwise a file with an empty name appends one line and
    is skipped; otherwise the file is stored under its name in the
    accession of the entry's identifier, replacing what was there. A skipped
    file changes nothing for the files around it: the final map is the one
    obtained without it, and the message differs by its one line only. *)
Theorem file_guards
    (l1 l2 : list Payload.t) (p : Payload.t) (fs1 fs2 : list File.t) (f : File.t) :
  Payload.Status p = 200%Z →
  let id := Payload.ID p in
  let before := sanitize_loop (l1 ++ [with_files p fs1]) in
  let after := sanitize_loop (l1 ++ [with_files p (fs1 ++ [f])]) in
  let rest := concat_str (file_msg id <$> fs2) +:+ concat_str (payload_msg <$> l2) in
  (File.Link f = "" →
     accs after = accs before ∧ msg after = msg before +:+ no_link_line id f) ∧
  (File.Link f ≠ "" → File.Name f = "" →
     accs after = accs before ∧ msg after = msg before +:+ no_name_line id f) ∧
  (File.Link f ≠ "" → File.Name f ≠ "" →
     msg after = msg before ∧
     ∃ files,
       accs before !! id = Some (Accession.mk id files) ∧
       accs after = <[id := Accession.mk id (<[File.Name f := f]> files)]> (accs before)) ∧
  (File.Link f = "" ∨ File.Name f = "" →
     accs_of (sanitize (l1 ++ with_files p (fs1 ++ f :: fs2) :: l2))
     = accs_of (sanitize (l1 ++ with_files p (fs1 ++ fs2) :: l2)) ∧
     msg_of (sanitize (l1 ++ with_files p (fs1 ++ f :: fs2) :: l2))
     = msg before +:+ file_msg id f +:+ rest ∧
     msg_of (sanitize (l1 ++ with_files p (fs1 ++ fs2) :: l2))
     = msg before +:+ rest).
Proof.
intros Hp id before after rest.
pose proof (sanitize_loop_ok l1) as Hok.
set (files0 := merge_files
       (from_option Accession.Files ∅ (accs (sanitize_loop l1) !! id)) fs1).
assert (accs before = <[id := Accession.mk id files0]> (accs (sanitize_loop l1)))
  as Hb.
{ unfold before. by rewrite sanitize_loop_snoc, step_with_files. }
assert (accs after
        = <[id := Accession.mk id
                    (if decide (wellformed f) then <[File.Name f := f]> files0
                     else files0)]> (accs (sanitize_loop l1))) as Ha.
{ unfold after. rewrite sanitize_loop_snoc, step_with_files by done.
  cbn [accs]. by rewrite merge_files_app, merge_files_cons. }
assert (msg before
        = msg_of (sanitize l1) +:+ concat_str (file_msg id <$> fs1)) as Hmb.
{ unfold before. by rewrite sanitize_loop_snoc, step_with_files. }
assert (msg after = msg before +:+ file_msg id f) as Hmsg.
{ unfold after, before. rewrite !sanitize_loop_snoc, !step_with_files by done.
  cbn [msg]. rewrite fmap_app, concat_str_app, append_assoc.
  cbn [fmap list_fmap concat_str]. by rewrite append_nil_r. }
split; [|split; [|split]].
- intros Hl. assert (¬ wellformed f) as Hw by (by intros [? _]).
  rewrite Hmsg, Ha, Hb. unfold file_msg.
  rewrite (decide_False (P := wellformed f)) by done.
  by rewrite (decide_True (P := File.Link f = "")) by done.
- intros Hl Hn. assert (¬ wellformed f) as Hw by (by intros [_ ?]).
  rewrite Hmsg, Ha, Hb. unfold file_msg.
  rewrite (decide_False (P := wellformed f)) by done.
  rewrite (decide_False (P := File.Link f = "")) by done.
  by rewrite (decide_True (P := File.Name f = "")) by done.
- intros Hl Hn. assert (wellformed f) as Hw by done. split.
  + rewrite Hmsg. unfold file_msg.
    rewrite (decide_False (P := File.Link f = "")) by done.
    rewrite (decide_False (P := File.Name f = "")) by done.
    apply append_nil_r.
  + exists files0. rewrite Ha, Hb, lookup_insert_eq, insert_insert_eq.
    by rewrite (decide_True (P := wellformed f)).
- intros Hbad. assert (¬ wellformed f) as Hw by (intros [? ?]; by destruct Hbad).
  split; [|split].
  + apply map_eq. intros k. rewrite !sanitize_lookup.
    rewrite !files_for_app, !files_for_cons.
    assert (∀ X, succeeded k (with_files p X) ↔ succeeded k p) as Hs by done.
    rewrite (decide_ext (Exists _ (l1 ++ with_files p (fs1 ++ f :: fs2) :: l2))
               (Exists (succeeded k) (l1 ++ with_files p (fs1 ++ fs2) :: l2))).
    2:{ rewrite !Exists_app, !Exists_cons, !Hs. done. }
    destruct (decide (succeeded k p)) as [Hk|Hk].
    * rewrite (decide_True (P := succeeded k (with_files p (fs1 ++ f :: fs2))))
        by done.
      rewrite (decide_True (P := succeeded k (with_files p (fs1 ++ fs2))))
        by done.
      cbn [with_files Payload.Files].
      rewrite !merge_files_app, merge_files_cons.
      by rewrite (decide_False (P := wellformed f)).
    * rewrite (decide_False (P := succeeded k (with_files p (fs1 ++ f :: fs2))))
        by done.
      by rewrite (decide_False (P := succeeded k (with_files p (fs1 ++ fs2))))
        by done.
  + rewrite sanitize_msg, fmap_app, concat_str_app. cbn [fmap list_fmap concat_str].
    rewrite payload_msg_with_files, fmap_app, concat_str_app by done.
    cbn [fmap list_fmap concat_str]. rewrite Hmb, sanitize_msg. unfold rest.
    by rewrite !append_assoc.
  + rewrite sanitize_msg, fmap_app, concat_str_app. cbn [fmap list_fmap concat_str].
    rewrite payload_msg_with_files, fmap_app, concat_str_app by done.
    rewrite Hmb, sanitize_msg. unfold rest.
    by rewrite !append_assoc.
Qed.

(** C9. After any prefix of the entries has been processed (and so also at
    the end), every key of the map stores an accession whose [ID] is that
    key, and every key of its file map stores a file whose [Name] is that
    key and whose [Link] is not empty. *)
Theorem sanitize_invariant (payload : list Payload.t) (i : nat) :
  (∀ k a, accs (sanitize_loop (take i payload)) !! k = Some a →
     Accession.ID a = k ∧
     ∀ n f, Accession.Files a !! n = Some f → File.Name f = n ∧ File.Link f ≠ "") ∧
  (∀ k a, accs_of (sanitize payload) !! k = Some a →
     Accession.ID a = k ∧
     ∀ n f, Accession.Files a !! n = Some f → File.Name f = n ∧ File.Link f ≠ "").
Proof.
split.
- apply (loop_result_ok sanitize_init (take i payload)), result_ok_empty.
- apply (loop_result_ok sanitize_init payload), result_ok_empty.
Qed.

(** *** Further properties of [sanitize] *)

Lemma files_for_elem k payload f :
  f ∈ files_for k payload
  ↔ ∃ p, p ∈ payload ∧ succeeded k p ∧ f ∈ Payload.Files p.
Proof.
unfold files_for. split.
- intros Hf. apply list_elem_of_In, in_concat in Hf as (fs & Hfs & Hf).
  apply list_elem_of_In, list_elem_of_fmap in Hfs as (p & -> & Hp).
  apply list_elem_of_filter in Hp as [Hs Hp]. exists p.
  by apply list_elem_of_In in Hf.
- intros (p & Hp & Hs & Hf). apply list_elem_of_In, in_concat.
  exists (Payload.Files p). split; [|by apply list_elem_of_In].
  apply list_elem_of_In, list_elem_of_fmap. exists p. split; [done|].
  by apply list_elem_of_filter.
Qed.

Lemma sanitize_lookup_Some payload k a :
  accs_of (sanitize payload) !! k = Some a →
  Exists (succeeded k) payload ∧
  a = Accession.mk k (merge_files ∅ (files_for k payload)).
Proof.
rewrite sanitize_lookup. case_decide; [|done]. by intros [= <-].
Qed.

(** Going on with more entries never takes away an identifier or a file
    name that is there, and leaves the files alone whose names the further
    entries do not carry. *)
Theorem sanitize_grows
    (l1 l2 : list Payload.t) (k : string) (a1 : Accession.t) :
  accs_of (sanitize l1) !! k = Some a1 →
  ∃ a2,
    accs_of (sanitize (l1 ++ l2)) !! k = Some a2 ∧
    dom (Accession.Files a1) ⊆ dom (Accession.Files a2) ∧
    ∀ n, named n (files_for k l2) = [] →
         Accession.Files a2 !! n = Accession.Files a1 !! n.
Proof.
intros [He ->]%sanitize_lookup_Some. eexists. split; [|split].
- rewrite sanitize_lookup, decide_True; [done|]. apply Exists_app. by left.
- cbn. rewrite files_for_app, merge_files_app.
  rewrite (merge_files_union (merge_files ∅ (files_for k l1))), dom_union_L.
  apply union_subseteq_r.
- intros n Hn. cbn.
  by rewrite files_for_app, merge_files_app, merge_files_lookup, Hn.
Qed.

(** Reconciling a response in two parts: the map of the whole is the map of
    the second part laid over the map of the first, file maps united with
    the second part's files winning; the message is the two messages in a
    row. *)
Theorem sanitize_app (l1 l2 : list Payload.t) :
  accs_of (sanitize (l1 ++ l2))
  = union_with merge_accession (accs_of (sanitize l2)) (accs_of (sanitize l1)) ∧
  msg_of (sanitize (l1 ++ l2)) = msg_of (sanitize l1) +:+ msg_of (sanitize l2).
Proof.
split.
- apply map_eq. intros k. rewrite lookup_union_with, !sanitize_lookup.
  rewrite files_for_app, merge_files_app.
  destruct (decide (Exists (succeeded k) l1)) as [H1|H1];
    destruct (decide (Exists (succeeded k) l2)) as [H2|H2].
  + rewrite decide_True by (apply Exists_app; by left). cbn.
    unfold merge_accession. cbn.
    by rewrite (merge_files_union (merge_files ∅ (files_for k l1))).
  + rewrite decide_True by (apply Exists_app; by left). cbn.
    by rewrite (files_for_none k l2).
  + rewrite decide_True by (apply Exists_app; by right). cbn.
    by rewrite (files_for_none k l1).
  + rewrite decide_False; [done|]. rewrite Exists_app. tauto.
- by rewrite !sanitize_msg, fmap_app, concat_str_app.
Qed.

Lemma sanitize_files_origin
    (payload : list Payload.t) (k n : string) (a : Accession.t) (f : File.t) :
  accs_of (sanitize payload) !! k = Some a →
  Accession.Files a !! n = Some f →
  n ≠ "" ∧ File.Name f = n ∧ File.Link f ≠ "" ∧
  ∃ p, p ∈ payload ∧ Payload.ID p = k ∧ Payload.Status p = 200%Z
       ∧ f ∈ Payload.Files p.
Proof.
intros [_ ->]%sanitize_lookup_Some. cbn. rewrite merge_files_lookup, lookup_empty.
destruct (last (named n (files_for k payload))) as [g|] eqn:Hg; [|done].
intros [= ->]. apply last_Some_elem_of in Hg.
apply list_elem_of_filter in Hg as [[[Hl Hn] Hnm] Hf].
apply files_for_elem in Hf as (p & Hp & [Hs Hk] & Hf).
split; [by rewrite <- Hnm|]. split; [done|]. split; [done|]. by exists p.
Qed.

(** Every file in the result comes from the response: it is a file, with a
    name and a link, of a status-200 entry for the identifier it is filed
    under, and it is stored under its own, non-empty name. *)
Theorem sanitize_files_provenance
    (payload : list Payload.t) (k n : string) (a : Accession.t) (f : File.t) :
  accs_of (sanitize payload) !! k = Some a →
  Accession.Files a !! n = Some f →
  n ≠ "" ∧ File.Name f = n ∧ File.Link f ≠ "" ∧
  ∃ p, p ∈ payload ∧ Payload.ID p = k ∧ Payload.Status p = 200%Z
       ∧ f ∈ Payload.Files p.
Proof. apply sanitize_files_origin. Qed.

(** No well-formed file of a status-200 entry is lost without a
    replacement: its name is a key of the file map of its identifier, and
    what is stored there is the last well-formed file of that name among the
    status-200 entries of the identifier. *)
Theorem sanitize_keeps_wellformed
    (payload : list Payload.t) (p : Payload.t) (f : File.t) :
  p ∈ payload → Payload.Status p = 200%Z → f ∈ Payload.Files p →
  File.Link f ≠ "" → File.Name f ≠ "" →
  ∃ a g,
    accs_of (sanitize payload) !! Payload.ID p = Some a ∧
    Accession.Files a !! File.Name f = Some g ∧
    last (named (File.Name f) (files_for (Payload.ID p) payload)) = Some g.
Proof.
intros Hp Hs Hf Hl Hn.
assert (succeeded (Payload.ID p) p) as Hsp by done.
assert (f ∈ named (File.Name f) (files_for (Payload.ID p) payload)) as Hin.
{ apply list_elem_of_filter. split; [done|]. apply files_for_elem. by exists p. }
destruct (last (named (File.Name f) (files_for (Payload.ID p) payload)))
  as [g|] eqn:Hg.
- exists (Accession.mk (Payload.ID p)
            (merge_files ∅ (files_for (Payload.ID p) payload))), g.
  split; [|split; [|done]].
  + rewrite sanitize_lookup, decide_True; [done|].
    apply Exists_exists. by exists p.
  + cbn. by rewrite merge_files_lookup, Hg.
- apply last_None in Hg. rewrite Hg in Hin. by apply elem_of_nil in Hin.
Qed.

(** When every entry has status 200 and every file has a name and a link,
    a non-empty response gives no error and no message, and the keys of the
    result are exactly the identifiers of the response. *)
Theorem sanitize_all_succeeded (payload : list Payload.t) :
  payload ≠ [] →
  (∀ p, p ∈ payload → Payload.Status p = 200%Z) →
  (∀ p f, p ∈ payload → f ∈ Payload.Files p →
          File.Link f ≠ "" ∧ File.Name f ≠ "") →
  err_of (sanitize payload) = None ∧
  msg_of (sanitize payload) = "" ∧
  dom (accs_of (sanitize payload)) = list_to_set (Payload.ID <$> payload).
Proof.
intros Hne Hs Hf. split; [|split].
- rewrite sanitize_err, decide_False; [done|].
  rewrite sanitize_empty_iff. destruct payload as [|p payload]; [done|].
  intros Hall. apply Forall_cons in Hall as [Hp _]. apply Hp, Hs, list_elem_of_here.
- rewrite sanitize_msg. clear Hne.
  induction payload as [|p payload IH]; [done|].
  cbn [fmap list_fmap concat_str]. rewrite IH.
  + rewrite append_nil_r. unfold payload_msg.
    rewrite decide_False by (apply not_failed, Hs, list_elem_of_here).
    assert (∀ f, f ∈ Payload.Files p → File.Link f ≠ "" ∧ File.Name f ≠ "")
      as Hfp by (intros f ?; apply (Hf p f); [apply list_elem_of_here|done]).
    induction (Payload.Files p) as [|f fs IHf]; [done|].
    cbn [fmap list_fmap concat_str]. rewrite IHf.
    * destruct (Hfp f (list_elem_of_here _ _)) as [Hl Hn].
      unfold file_msg. by rewrite !decide_False.
    * intros g Hg. by apply Hfp, list_elem_of_further.
  + intros q Hq. by apply Hs, list_elem_of_further.
  + intros q g Hq. by apply Hf, list_elem_of_further.
- apply set_eq. intros k.
  rewrite elem_of_dom, sanitize_lookup, elem_of_list_to_set, list_elem_of_fmap.
  destruct (decide (Exists (succeeded k) payload)) as [He|He].
  + split; [intros _|by eexists].
    apply Exists_exists in He as (p & Hp & _ & Hk). by exists p.
  + split; [by intros [? ?]|]. intros (p & -> & Hp). exfalso. apply He.
    apply Exists_exists. exists p. split; [done|]. split; [by apply Hs | done].
Qed.

(** With Go's map references made explicit, no two identifiers ever share a
    file map, every reference points at a map that exists, and what
    [sanitize] returns is what the value-passing reading returns. *)
Theorem sanitize_ref_no_sharing (payload : list Payload.t) :
  let st := foldl payload_step_ref sanitize_ref_init payload in
  (∀ k a, raccs st !! k = Some a →
     AccessionRef.ID a = k ∧ (AccessionRef.Files a < length (heap st))%nat) ∧
  (∀ k1 k2 a1 a2, raccs st !! k1 = Some a1 → raccs st !! k2 = Some a2 →
     AccessionRef.Files a1 = AccessionRef.Files a2 → k1 = k2) ∧
  sanitize_ref payload = sanitize payload.
Proof.
intros st.
destruct (view_loop sanitize_ref_init payload ref_ok_init) as [[Hid Hinj] _].
split; [exact Hid|]. split; [exact Hinj|]. apply sanitize_ref_sanitize.
Qed.

(** *** [ResolveNames] *)

Variable unmarshal_payloads : string → option (list Payload.t).
Variable unmarshal_payload : string → option Payload.t.

Local Abbreviation ResolveNames :=
  (ResolveNames sprint_File unmarshal_payloads unmarshal_payload).

Lemma Sprintf_api_error e :
  Sprintf "encountered error from Name Resolver API: %d: %s"
    [ArgD (Payload.Status e); ArgS (Payload.Message e)] = api_error e.
Proof.
transitivity ("encountered error from Name Resolver API: "
              +:+ pretty (Payload.Status e) +:+ ": " +:+ Payload.Message e +:+ "");
  [reflexivity|].
unfold api_error. by rewrite append_nil_r.
Qed.

Lemma ResolveNames_decode resp bytes :
  reaches_decoding resp bytes →
  ResolveNames (Some resp)
  = match unmarshal_payloads bytes with
    | Some payload =>
        Outcome (Some (accs_of (sanitize payload))) (err_of (sanitize payload))
          (if decide (msg_of (sanitize payload) ≠ "" ∧ err_of (sanitize payload) = None)
           then msg_of (sanitize payload) +:+ nl else "")
    | None =>
        match unmarshal_payload bytes with
        | Some e => Outcome None (Some (api_error e)) ""
        | None => Outcome None (Some could_not_read) ""
        end
    end.
Proof.
intros (Hs & Hc & Hb). unfold ResolveNames.
rewrite decide_False by (by intros []).
rewrite decide_False by (by intros []).
rewrite Hb. destruct (unmarshal_payloads bytes) as [payload|].
- by destruct (sanitize payload) as [[a m] e].
- destruct (unmarshal_payload bytes) as [e|]; [|done].
  by rewrite Sprintf_api_error.
Qed.

(** C7. Once the body is read: if it decodes as an array, the call returns
    what reconciliation returns; otherwise, if it decodes as one object, the
    call fails with an error made of that object's status and message;
    otherwise it fails with the could-not-read error, whose text differs
    from every error of the other two kinds. *)
Theorem ResolveNames_decoding (resp : Response.t) (bytes : string) :
  reaches_decoding resp bytes →
  match unmarshal_payloads bytes, unmarshal_payload bytes with
  | Some payload, _ =>
      out_accessions (ResolveNames (Some resp)) = Some (accs_of (sanitize payload)) ∧
      out_err (ResolveNames (Some resp)) = err_of (sanitize payload)
  | None, Some e =>
      out_accessions (ResolveNames (Some resp)) = None ∧
      out_err (ResolveNames (Some resp))
      = Some ("encountered error from Name Resolver API: "
              +:+ pretty (Payload.Status e) +:+ ": " +:+ Payload.Message e)
  | None, None =>
      out_accessions (ResolveNames (Some resp)) = None ∧
      out_err (ResolveNames (Some resp)) = Some could_not_read
  end ∧
  (∀ e, could_not_read ≠ api_error e) ∧
  (∀ payload, err_of (sanitize payload) ≠ Some could_not_read).
Proof.
intros Hr. rewrite (ResolveNames_decode resp bytes Hr). split; [|split].
- destruct (unmarshal_payloads bytes) as [payload|]; [done|].
  by destruct (unmarshal_payload bytes).
- intros e. discriminate.
- intros payload. rewrite sanitize_err. case_decide; discriminate.
Qed.

(** C8, amended. When the array decodes and reconciliation yields a
    non-empty map, [ResolveNames] returns that map and a nil error, and
    nothing else; the diagnostic message, when it is not empty, is written
    to standard output, followed by a newline. *)
Theorem ResolveNames_prints_diagnostics
    (resp : Response.t) (bytes : string) (payload : list Payload.t) :
  reaches_decoding resp bytes →
  unmarshal_payloads bytes = Some payload →
  accs_of (sanitize payload) ≠ ∅ →
  ResolveNames (Some resp)
  = {| out_accessions := Some (accs_of (sanitize payload));
       out_err := None;
       out_stdout := if decide (msg_of (sanitize payload) = "") then ""
                     else msg_of (sanitize payload) +:+ nl |}.
Proof.
intros Hr Hd Hne. rewrite (ResolveNames_decode resp bytes Hr), Hd.
rewrite sanitize_err, decide_False by done. f_equal.
destruct (decide (msg_of (sanitize payload) = "")) as [He|He].
- rewrite decide_False; [done|]. by intros [? _].
- by rewrite decide_True.
Qed.

(** C10. A body that does not decode as an array but decodes as one object
    makes the call fail: the map returned is nil and the error carries the
    object's status and message, whatever the object holds (a status of 200
    and well-formed files included). *)
Theorem ResolveNames_single_object_fails
    (resp : Response.t) (bytes : string) (e : Payload.t) :
  reaches_decoding resp bytes →
  unmarshal_payloads bytes = None →
  unmarshal_payload bytes = Some e →
  out_accessions (ResolveNames (Some resp)) = None ∧
  out_err (ResolveNames (Some resp))
  = Some ("encountered error from Name Resolver API: "
          +:+ pretty (Payload.Status e) +:+ ": " +:+ Payload.Message e) ∧
  out_stdout (ResolveNames (Some resp)) = "".
Proof.
intros Hr Ha Ho. by rewrite (ResolveNames_decode resp bytes Hr), Ha, Ho.
Qed.


(** The checks made before the body is decoded: a status other than 200
    fails with the status text, then a Content-Type other than exactly
    application/json fails with that Content-Type, then a body that cannot
    be read fails with the same text as a body that cannot be decoded. In
    all three the body is not decoded. *)
Theorem ResolveNames_protocol_errors (resp : Response.t) :
  (Response.StatusCode resp ≠ 200%Z →
     ResolveNames (Some resp)
     = Outcome None
         (Some ("encountered error from Name Resolver API: " +:+ Response.Status resp))
         "") ∧
  (Response.StatusCode resp = 200%Z →
   Response.ContentType resp ≠ "application/json" →
     ResolveNames (Some resp)
     = Outcome None
         (Some ("Name Resolver API gave incorrect Content-Type: "
                +:+ Response.ContentType resp))
         "") ∧
  (Response.StatusCode resp = 200%Z →
   Response.ContentType resp = "application/json" →
   Response.Body resp = None →
     ResolveNames (Some resp) = Outcome None (Some could_not_read) "").
Proof.
unfold ResolveNames. split; [|split].
- intros Hs. rewrite decide_True by done. do 2 f_equal.
  transitivity ("encountered error from Name Resolver API: "
                +:+ Response.Status resp +:+ ""); [reflexivity|].
  by rewrite append_nil_r.
- intros Hs Hc. rewrite decide_False by (by intros []).
  rewrite decide_True by done. do 2 f_equal.
  transitivity ("Name Resolver API gave incorrect Content-Type: "
                +:+ Response.ContentType resp +:+ ""); [reflexivity|].
  by rewrite append_nil_r.
- intros Hs Hc Hb. rewrite decide_False by (by intros []).
  rewrite decide_False by (by intros []). by rewrite Hb.
Qed.

End Properties.

(** * Properties of package [awsutil] *)

Lemma Split_length s c : length (Split s c) = S (count_char c s).
Proof.
induction s as [|x s IH]; [done|]. cbn [Split count_char].
destruct (decide (x = c)).
- cbn. by rewrite IH.
- destruct (Split s c) as [|piece pieces]; cbn in *; lia.
Qed.

Lemma Split_app_sep a b c :
  count_char c a = 0%nat → Split (a +:+ String c b) c = a :: Split b c.
Proof.
induction a as [|x a IH]; intros Ha.
- change (Split (String c b) c = "" :: Split b c). cbn [Split].
  by rewrite decide_True.
- change (Split (String x (a +:+ String c b)) c = String x a :: Split b c).
  cbn [Split count_char] in *. destruct (decide (x = c)); [done|].
  by rewrite IH by done.
Qed.

Lemma count_char_app c a b :
  count_char c (a +:+ b) = (count_char c a + count_char c b)%nat.
Proof.
induction a as [|x a IH]; [done|].
change (count_char c (String x (a +:+ b))
        = (count_char c (String x a) + count_char c b)%nat).
cbn [count_char]. rewrite IH. lia.
Qed.

(** [parseHTTPError] yields [io.EOF] exactly for the codes it does not
    know, an errno for each of the five it knows, no two of them the same,
    and never anything else. *)
Theorem parseHTTPError_classes (code : Z) :
  (parseHTTPError code = EOF
   ↔ code ≠ 400%Z ∧ code ≠ 403%Z ∧ code ≠ 404%Z ∧ code ≠ 405%Z ∧ code ≠ 500%Z) ∧
  (∀ code', parseHTTPError code = parseHTTPError code' →
            parseHTTPError code ≠ EOF → code = code') ∧
  (∀ text, parseHTTPError code ≠ LibraryError text).
Proof.
unfold parseHTTPError. split; [|split].
- repeat case_decide; split; try discriminate; try done; intros; lia.
- intros code'. repeat case_decide; try discriminate; try done; intros; lia.
- intros text. repeat case_decide; discriminate.
Qed.

Section HTTPProperties.

Variable NewRequest_error : string → string → option aws_error.
Variable Do : Request.t → aws_error + Response.t.

Local Abbreviation GetObjectRange := (GetObjectRange NewRequest_error Do).
Local Abbreviation GetObject := (GetObject NewRequest_error Do).
Local Abbreviation HeadObject := (HeadObject NewRequest_error Do).

Lemma GetObjectRange_cases (url byteRange : string) (resp : Response.t) :
  let sent := Request.mk "GET" url
                (if decide (byteRange = "") then [] else [("Range", byteRange)]) in
  (GetObjectRange url byteRange = inr resp
   ↔ NewRequest_error "GET" url = None ∧ Do sent = inr resp ∧
     (Response.StatusCode resp = 200%Z ∨ Response.StatusCode resp = 206%Z)) ∧
  (NewRequest_error "GET" url = None → Do sent = inr resp →
   Response.StatusCode resp ≠ 200%Z → Response.StatusCode resp ≠ 206%Z →
   GetObjectRange url byteRange = inl (parseHTTPError (Response.StatusCode resp))).
Proof.
intros sent. unfold GetObjectRange, NewRequest, Header_Add.
assert ((if decide (byteRange ≠ "")
         then Request.mk "GET" url ([] ++ [("Range", byteRange)])
         else Request.mk "GET" url []) = sent) as Hsent.
{ unfold sent. destruct (decide (byteRange = "")).
  - by rewrite decide_False by (by intros []).
  - by rewrite decide_True. }
destruct (NewRequest_error "GET" url) as [err|].
{ split; [split; [done|by intros [? _]] | done]. }
cbn [Request.Method Request.URL Request.Header]. rewrite Hsent.
clear Hsent. clearbody sent.
unfold StatusPartialContent, StatusOK. split.
- destruct (Do sent) as [err|resp']; [split; [done|by intros (_ & ? & _)]|].
  case_decide as Hc.
  + split; [done|]. intros (_ & [= ->] & Hor). destruct Hc. by destruct Hor.
  + split.
    * intros [= ->]. split; [done|]. split; [done|].
      destruct (decide (Response.StatusCode resp = 200%Z)); [by left|].
      destruct (decide (Response.StatusCode resp = 206%Z)); [by right|].
      destruct Hc. by split.
    * by intros (_ & [= ->] & _).
- intros _ -> H200 H206. by rewrite decide_True.
Qed.

(** [GetObjectRange] hands back a response exactly when the request could
    be made and the answer to it has status 200 or 206; the request is a GET
    of the URL that carries a Range header, with the given range, exactly
    when the range is not empty. Any other status becomes the error that
    [parseHTTPError] gives for it. *)
Theorem GetObjectRange_response (url byteRange : string) (resp : Response.t) :
  let sent := Request.mk "GET" url
                (if decide (byteRange = "") then [] else [("Range", byteRange)]) in
  (GetObjectRange url byteRange = inr resp
   ↔ NewRequest_error "GET" url = None ∧ Do sent = inr resp ∧
     (Response.StatusCode resp = 200%Z ∨ Response.StatusCode resp = 206%Z)) ∧
  (NewRequest_error "GET" url = None → Do sent = inr resp →
   Response.StatusCode resp ≠ 200%Z → Response.StatusCode resp ≠ 206%Z →
   GetObjectRange url byteRange = inl (parseHTTPError (Response.StatusCode resp))).
Proof. apply GetObjectRange_cases. Qed.

(** [GetObject] is the GET without a Range header: it hands back a response
    exactly when the request could be made and the answer has status 200 or
    206. *)
Lemma GetObject_response (url : string) (resp : Response.t) :
  GetObject url = inr resp
  ↔ NewRequest_error "GET" url = None ∧
    Do (Request.mk "GET" url []) = inr resp ∧
    (Response.StatusCode resp = 200%Z ∨ Response.StatusCode resp = 206%Z).
Proof.
destruct (GetObjectRange_cases url "" resp) as [Hiff _]. cbn in Hiff.
rewrite <- Hiff. unfold GetObject.
destruct (GetObjectRange url "") as [err|resp']; [done|]. split; congruence.
Qed.

(** [HeadObject], unlike [GetObjectRange], looks at no status: it hands
    back whatever response the HEAD request, sent without headers, got. *)
Theorem HeadObject_response (url : string) (resp : Response.t) :
  HeadObject url = inr resp
  ↔ NewRequest_error "HEAD" url = None ∧ Do (Request.mk "HEAD" url []) = inr resp.
Proof.
unfold HeadObject, NewRequest.
destruct (NewRequest_error "HEAD" url) as [err|].
{ split; [done|by intros [? _]]. }
destruct (Do (Request.mk "HEAD" url [])) as [err|resp'].
- split; [done|by intros [_ ?]].
- split; [by intros [= ->]|by intros [_ [= ->]]].
Qed.

End HTTPProperties.

Section NgcProperties.

Variable url_Parse : string → aws_error + URL.t.
Variable s3_GetObject : string → string → string → aws_error + (string * option aws_error).

Local Abbreviation ReadNgcFile := (ReadNgcFile url_Parse s3_GetObject).

Lemma ReadNgcFile_few_sections path u :
  url_Parse path = inr u →
  (count_char "."%char (URL.Hostname u) < 4)%nat →
  ReadNgcFile path = (None, Some (invalid_s3_location path)).
Proof.
intros Hu Hc. unfold ReadNgcFile.
destruct (Contains path "s3.amazonaws.com"); [|done]. cbn [negb]. rewrite Hu.
rewrite decide_True; [done|]. rewrite Split_length. lia.
Qed.

(** [ReadNgcFile] turns a location down, with its own error and without
    reading anything, when the text s3.amazonaws.com does not occur in it,
    and when the host name of the parsed URL has fewer than five labels. *)
Theorem ReadNgcFile_rejects (path : string) :
  (Contains path "s3.amazonaws.com" = false →
     ReadNgcFile path = (None, Some (invalid_s3_location path))) ∧
  (∀ u, url_Parse path = inr u →
        (count_char "."%char (URL.Hostname u) < 4)%nat →
        ReadNgcFile path = (None, Some (invalid_s3_location path))).
Proof.
split.
- intros Hc. unfold ReadNgcFile. by rewrite Hc.
- intros u. apply ReadNgcFile_few_sections.
Qed.

(** A host name of the form [bucket].s3.amazonaws.com, the style that the
    comment in the code names, has four labels and is turned down. *)
Theorem ReadNgcFile_rejects_without_region (path bucket : string) (u : URL.t) :
  url_Parse path = inr u →
  URL.Hostname u = bucket +:+ ".s3.amazonaws.com" →
  count_char "."%char bucket = 0%nat →
  ReadNgcFile path = (None, Some (invalid_s3_location path)).
Proof.
intros Hu Hh Hb. apply (ReadNgcFile_few_sections path u Hu).
rewrite Hh, count_char_app, Hb.
replace (count_char "."%char ".s3.amazonaws.com") with 3%nat by reflexivity.
lia.
Qed.

(** A location that passes is read from S3 with the first label of the host
    name as bucket, the second as region and the path of the URL as key; the
    bytes and the error of that read are what [ReadNgcFile] returns. *)
Theorem ReadNgcFile_reads (path bucket region rest : string) (u : URL.t) :
  Contains path "s3.amazonaws.com" = true →
  url_Parse path = inr u →
  URL.Hostname u = bucket +:+ "." +:+ region +:+ "." +:+ rest →
  count_char "."%char bucket = 0%nat →
  count_char "."%char region = 0%nat →
  (2 ≤ count_char "."%char rest)%nat →
  ReadNgcFile path
  = match s3_GetObject region bucket (URL.Path u) with
    | inl err => (None, Some err)
    | inr (bytes, err) => (Some bytes, err)
    end.
Proof.
intros Hc Hu Hh Hb Hr Hrest. unfold ReadNgcFile. rewrite Hc, Hu. cbn [negb].
rewrite Hh.
change (bucket +:+ "." +:+ region +:+ "." +:+ rest)
  with (bucket +:+ String "."%char (region +:+ String "."%char rest)).
rewrite !Split_app_sep by done.
rewrite decide_False; [done|]. cbn [length]. rewrite Split_length. lia.
Qed.

End NgcProperties.

(** * Properties of the command [sracp] *)

Lemma Ext_scan_no_dot s : count_char "."%char s = 0%nat → Ext_scan s "" = "".
Proof.
induction s as [|c s IH]; [done|]. cbn [count_char Ext_scan]. intros Hc.
destruct (decide (c = "."%char)); [done|].
destruct (decide (c = "/"%char)); by apply IH.
Qed.

Lemma Ext_scan_plain e cand :
  count_char "."%char e = 0%nat → count_char "/"%char e = 0%nat →
  Ext_scan e cand = cand.
Proof.
induction e as [|c e IH]; [done|]. cbn [count_char Ext_scan]. intros Hd Hs.
destruct (decide (c = "."%char)); [done|].
destruct (decide (c = "/"%char)); [done|]. by apply IH.
Qed.

Lemma Ext_scan_dotted base e cand :
  count_char "."%char e = 0%nat → count_char "/"%char e = 0%nat →
  Ext_scan (base +:+ String "."%char e) cand = String "."%char e.
Proof.
intros Hd Hs. revert cand. induction base as [|c base IH]; intros cand.
- change (Ext_scan (String "."%char e) cand = String "."%char e).
  cbn [Ext_scan]. rewrite decide_False, decide_True by done.
  by apply Ext_scan_plain.
- change (Ext_scan (String c (base +:+ String "."%char e)) cand
          = String "."%char e).
  cbn [Ext_scan]. repeat case_decide; apply IH.
Qed.

Lemma TrimLeft_dot e :
  count_char "."%char e = 0%nat → TrimLeft (String "."%char e) "." = e.
Proof.
intros He. cbn [TrimLeft]. rewrite decide_True by done.
destruct e as [|c e]; [done|]. cbn [TrimLeft count_char] in *.
destruct (decide (c = "."%char)); [done|].
rewrite decide_False; [done|]. intros Hc. apply Hc. cbn.
by rewrite decide_False by done.
Qed.

(** The extension that the [--only] test looks up: for a name that ends in
    a dot and a part without dot and slash it is that part, whatever comes
    before; for a name without any dot it is empty. *)
Theorem extension_of_name (base e name : string) :
  (count_char "."%char e = 0%nat → count_char "/"%char e = 0%nat →
     TrimLeft (Ext (base +:+ "." +:+ e)) "." = e) ∧
  (count_char "."%char name = 0%nat → TrimLeft (Ext name) "." = "").
Proof.
split.
- intros Hd Hs. unfold Ext.
  change (base +:+ "." +:+ e) with (base +:+ String "."%char e).
  rewrite Ext_scan_dotted by done. by apply TrimLeft_dot.
- intros Hn. unfold Ext. by rewrite Ext_scan_no_dot.
Qed.


Section DownloadProperties.

Variable Join : list string → string.

Local Abbreviation download_commands := (download_commands Join).

Lemma download_commands_elem {V : Type}
    (mkdir_failed only : bool) (Types : gmap string V) (Path : string)
    (v : Accession.t) (args : list string) :
  args ∈ download_commands mkdir_failed only Types Path v
  ↔ mkdir_failed = false ∧
    ∃ n f, Accession.Files v !! n = Some f ∧ wanted only Types f = true ∧
           args = ["-o"; Join [Path; Accession.ID v; File.Name f]; File.Link f].
Proof.
unfold download_commands. destruct mkdir_failed.
{ split; [by intros ?%elem_of_nil | by intros [? _]]. }
rewrite list_elem_of_omap. split.
- intros ([n f] & Hnf%elem_of_map_to_list & Hw). cbn in Hw.
  destruct (wanted only Types f) eqn:Hwf; [|done].
  injection Hw as <-. split; [done|]. by exists n, f.
- intros (_ & n & f & Hf & Hw & ->). exists (n, f). split.
  + by apply elem_of_map_to_list.
  + cbn. by rewrite Hw.
Qed.

Lemma download_commands_image {V : Type}
    (only : bool) (Types : gmap string V) (Path : string) (v : Accession.t) :
  download_commands false only Types Path v
  = (λ nf : string * File.t,
       ["-o"; Join [Path; Accession.ID v; File.Name nf.2]; File.Link nf.2])
    <$> filter (λ nf, wanted only Types nf.2 = true)
          (map_to_list (Accession.Files v)).
Proof.
unfold download_commands.
induction (map_to_list (Accession.Files v)) as [|nf l IH]; [done|].
rewrite filter_cons. cbn [omap list_omap].
destruct (wanted only Types nf.2) eqn:Hw.
- rewrite decide_True by done. cbn [fmap list_fmap]. by rewrite <- IH.
- by rewrite decide_False by done.
Qed.

(** The curl commands run for an accession: none when its directory could
    not be made; otherwise exactly one for each wanted file of the accession
    and no other: the commands are, in the order in which the file map is
    walked, those of an enumeration without repetition of the wanted files,
    each writing to the path joined from the target directory, the
    accession's identifier and the file's name, and reading the file's
    link. *)
Theorem download_commands_spec {V : Type}
    (mkdir_failed only : bool) (Types : gmap string V) (Path : string)
    (v : Accession.t) :
  (∀ args,
     args ∈ download_commands mkdir_failed only Types Path v
     ↔ mkdir_failed = false ∧
       ∃ n f, Accession.Files v !! n = Some f ∧ wanted only Types f = true ∧
              args = ["-o"; Join [Path; Accession.ID v; File.Name f]; File.Link f]) ∧
  (mkdir_failed = true → download_commands mkdir_failed only Types Path v = []) ∧
  (mkdir_failed = false →
     ∃ fs : list (string * File.t),
       NoDup fs.*1 ∧
       (∀ n f, (n, f) ∈ fs
               ↔ Accession.Files v !! n = Some f ∧ wanted only Types f = true) ∧
       download_commands mkdir_failed only Types Path v
       = (λ nf : string * File.t,
            ["-o"; Join [Path; Accession.ID v; File.Name nf.2]; File.Link nf.2])
         <$> fs).
Proof.
split; [|split].
- intros args. apply download_commands_elem.
- by intros ->.
- intros ->.
  exists (filter (λ nf, wanted only Types nf.2 = true)
            (map_to_list (Accession.Files v))).
  split; [|split].
  + apply (sublist_NoDup _ ((map_to_list (Accession.Files v)).*1)).
    * apply NoDup_fst_map_to_list.
    * apply fmap_sublist, sublist_filter.
  + intros n f. rewrite list_elem_of_filter, elem_of_map_to_list. cbn. tauto.
  + apply download_commands_image.
Qed.

Variable sprint_File : File.t → string.

Local Abbreviation sanitize := (sanitize sprint_File).

(** Downloading what [sanitize] resolved: every curl command reads a link
    that is not empty and writes under the identifier it was resolved for,
    to a file name that is not empty, and the file is one that a status-200
    entry of the response lists for that identifier. *)
Theorem download_commands_of_sanitize {V : Type}
    (payload : list Payload.t) (k : string) (v : Accession.t)
    (mkdir_failed only : bool) (Types : gmap string V) (Path : string)
    (args : list string) :
  accs_of (sanitize payload) !! k = Some v →
  args ∈ download_commands mkdir_failed only Types Path v →
  ∃ p f,
    p ∈ payload ∧ Payload.ID p = k ∧ Payload.Status p = 200%Z ∧
    f ∈ Payload.Files p ∧ File.Name f ≠ "" ∧ File.Link f ≠ "" ∧
    args = ["-o"; Join [Path; k; File.Name f]; File.Link f].
Proof.
intros Hv Hargs.
assert (Accession.ID v = k) as Hid.
{ by destruct (loop_result_ok sprint_File (sanitize_init) payload result_ok_empty
                 k v Hv). }
apply download_commands_elem in Hargs as (_ & n & f & Hf & _ & ->).
destruct (sanitize_files_origin sprint_File payload k n v f Hv Hf)
  as (Hn & Hnm & Hl & p & Hp & Hk & Hs & Hfp).
exists p, f. rewrite Hid. rewrite Hnm. by repeat split.
Qed.

End DownloadProperties.

Lemma filter_no_prefix key environ :
  existsb (String.prefix key) environ = false →
  filter (λ e, String.prefix key e = false) environ = environ.
Proof.
induction environ as [|e environ IH]; [done|]. cbn [existsb].
intros [He Hrest]%orb_false_iff. rewrite filter_cons, decide_True by done.
by rewrite IH.
Qed.

(** After [EnsurePathIsSet] the environment has an entry that starts with
    PATH=. An environment that had one, be its value empty, is left as it
    is; otherwise the default is added and nothing is taken away. Calling
    it twice is calling it once. *)
Theorem EnsurePathIsSet_spec (environ : list string) :
  existsb (String.prefix "PATH=") (EnsurePathIsSet environ) = true ∧
  (existsb (String.prefix "PATH=") environ = true →
     EnsurePathIsSet environ = environ) ∧
  (existsb (String.prefix "PATH=") environ = false →
     EnsurePathIsSet environ
     = (environ
        ++ ["PATH=/usr/local/sbin:/usr/local/bin:/usr/sbin:/usr/bin:/sbin:/bin"])%list) ∧
  EnsurePathIsSet (EnsurePathIsSet environ) = EnsurePathIsSet environ.
Proof.
assert (existsb (String.prefix "PATH=") environ = false →
        EnsurePathIsSet environ
        = (environ
           ++ ["PATH=/usr/local/sbin:/usr/local/bin:/usr/sbin:/usr/bin:/sbin:/bin"])%list)
  as Hadd.
{ intros He. unfold EnsurePathIsSet, Setenv. rewrite He.
  change ("PATH" +:+ "=") with "PATH=".
  by rewrite filter_no_prefix. }
assert (existsb (String.prefix "PATH=") (EnsurePathIsSet environ) = true) as Hset.
{ destruct (existsb (String.prefix "PATH=") environ) eqn:He.
  - unfold EnsurePathIsSet. by rewrite He.
  - rewrite Hadd by done. rewrite existsb_app. apply orb_true_iff. by right. }
split; [done|]. split; [|split; [done|]].
- intros He. unfold EnsurePathIsSet. by rewrite He.
- unfold EnsurePathIsSet at 1. by rewrite Hset.
Qed.
(** * Properties of the request of [ResolveNames] *)

Section RequestProperties.

Variable io_err : io_op → option string.

Local Abbreviation write_accs := (write_accs io_err).
Local Abbreviation ResolveNames_request := (ResolveNames_request io_err).

Lemma write_accs_ok keys :
  (∀ op, io_err op = None) → write_accs keys = Some (FormField "acc" <$> keys).
Proof.
intros Hok. induction keys as [|acc keys IH]; [done|].
cbn. by rewrite Hok, IH.
Qed.

(** When nothing fails while the request is put together, it goes to the
    given endpoint, or to the default one when none is given, and its form
    holds: the ngc file when there is one; the version and the format; the
    location when it is not empty; and one acc field for every key of the
    map of identifiers, whatever value the key has. Nothing else is in
    it. *)
Theorem ResolveNames_request_parts
    (url loc : string) (ngc : option string) (accs : gmap string bool) :
  (∀ op, io_err op = None) →
  ∃ parts,
    ResolveNames_request url loc ngc accs
    = inr (if decide (url = "") then default_endpoint else url, parts) ∧
    (∀ pt, pt ∈ parts
       ↔ (∃ content, ngc = Some content ∧ pt = FormFile "ngc" "ngc" content) ∨
         pt = FormField "version" "xc-1.0" ∨
         pt = FormField "format" "json" ∨
         (loc ≠ "" ∧ pt = FormField "location" loc) ∨
         (∃ acc, acc ∈ dom accs ∧ pt = FormField "acc" acc)) ∧
    length parts
    = ((if ngc is Some _ then 1 else 0) + 2
       + (if decide (loc = "") then 0 else 1) + size accs)%nat.
Proof.
intros Hok.
exists ((if ngc is Some content then [FormFile "ngc" "ngc" content] else [])
        ++ [FormField "version" "xc-1.0"; FormField "format" "json"]
        ++ (if decide (loc ≠ "") then [FormField "location" loc] else [])
        ++ (FormField "acc" <$> (map_to_list accs).*1))%list.
split; [|split].
- unfold ResolveNames_request. rewrite !Hok, write_accs_ok by done.
  destruct ngc as [content|]; rewrite ?Hok;
    destruct (decide (loc ≠ "")); rewrite ?Hok; reflexivity.
- intros pt. rewrite !elem_of_app, list_elem_of_fmap.
  assert (∀ acc, acc ∈ (map_to_list accs).*1 ↔ acc ∈ dom accs) as Hdom.
  { intros acc. rewrite list_elem_of_fmap, elem_of_dom. split.
    - intros ([k b] & -> & Hkb%elem_of_map_to_list). by exists b.
    - intros [b Hb]. exists (acc, b). split; [done|].
      by apply elem_of_map_to_list. }
  split.
  + intros [Hn|[Hvf|[Hl|(acc & -> & Hacc)]]].
    * left. destruct ngc as [content|]; [|by apply elem_of_nil in Hn].
      apply list_elem_of_singleton in Hn. by exists content.
    * apply elem_of_cons in Hvf as [->|Hf]; [by right; left|].
      apply list_elem_of_singleton in Hf. by right; right; left.
    * right; right; right; left.
      destruct (decide (loc ≠ "")); [|by apply elem_of_nil in Hl].
      by apply list_elem_of_singleton in Hl.
    * right; right; right; right. exists acc. by rewrite <- Hdom.
  + intros [(content & -> & ->)|[->|[->|[[Hl ->]|(acc & Hacc & ->)]]]].
    * left. by apply list_elem_of_singleton.
    * right; left. apply list_elem_of_here.
    * right; left. apply list_elem_of_further, list_elem_of_here.
    * right; right; left. rewrite decide_True by done.
      by apply list_elem_of_singleton.
    * right; right; right. exists acc. by rewrite Hdom.
- rewrite !length_app, !length_fmap, length_map_to_list. cbn [length].
  destruct ngc; destruct (decide (loc ≠ "")) as [Hl|Hl].
  + rewrite decide_False by done. cbn. lia.
  + rewrite decide_True by (by destruct (decide (loc = "")); [|destruct Hl]).
    cbn. lia.
  + rewrite decide_False by done. cbn. lia.
  + rewrite decide_True by (by destruct (decide (loc = "")); [|destruct Hl]).
    cbn. lia.
Qed.

End RequestProperties.

(** * The properties at the sample data *)

Lemma sanitize_error_iff_empty_witness :
  err_of (sanitize sample_sprint_File [unresolved])
  = Some ("API returned no mountable accessions" +:+ nl
          +:+ "SRR000002: 404" +:+ tab +:+ "no data").
Proof.
apply (proj1 (proj2 (sanitize_error_iff_empty sample_sprint_File [unresolved]))).
reflexivity.
Defined.

Lemma sanitize_all_failed_witness :
  accs_of (sanitize sample_sprint_File [unresolved]) = ∅ ∧
  msg_of (sanitize sample_sprint_File [unresolved]) ≠ "" ∧
  ∃ trail,
    trail ≠ "" ∧
    err_of (sanitize sample_sprint_File [unresolved])
    = Some ("API returned no mountable accessions" +:+ nl +:+ trail).
Proof.
apply (sanitize_all_failed sample_sprint_File [unresolved]).
- discriminate.
- apply Forall_cons. split; [|apply Forall_nil_2]. discriminate.
Defined.

(** C2 as stated fails twice: on the empty list every entry (there is none)
    has a status other than 200, and both diagnostic texts are empty; a
    status-200 entry whose only file is malformed contributes no well-formed
    file, and the call returns no error. *)
Lemma sanitize_no_wellformed_files_counterexample :
  (Forall failed [] ∧
   msg_of (sanitize sample_sprint_File []) = "" ∧
   err_of (sanitize sample_sprint_File [])
   = Some ("API returned no mountable accessions" +:+ nl)) ∧
  (let payload := [Payload.mk "SRR000001" 200 "" [file "" "http://x/a.bam"]] in
   (∀ p f, p ∈ payload → Payload.Status p = 200%Z → f ∈ Payload.Files p →
           File.Name f = "" ∨ File.Link f = "") ∧
   err_of (sanitize sample_sprint_File payload) = None).
Proof.
split; [split; [apply Forall_nil_2 | split; reflexivity]|].
split; [|reflexivity].
intros p f ->%list_elem_of_singleton _ ->%list_elem_of_singleton. by left.
Qed.


Lemma sanitize_merges_duplicates_witness :
  let p1 := Payload.mk "SRR000001" 200 ""
              [file "a.bam" "http://x/a.bam"; file "b.bam" "http://x/b.bam"] in
  let p2 := Payload.mk "SRR000001" 200 "" [file "b.bam" "http://y/b.bam"] in
  ∃ a,
    accs_of (sanitize sample_sprint_File [p1; unresolved; p2]) !! "SRR000001" = Some a ∧
    Accession.Files a !! "a.bam" = Some (file "a.bam" "http://x/a.bam") ∧
    Accession.Files a !! "b.bam" = Some (file "b.bam" "http://y/b.bam").
Proof.
intros p1 p2.
destruct (sanitize_merges_duplicates sample_sprint_File [] [unresolved] []
            p1 p2 "SRR000001") as (a & Ha & _ & _ & _ & _ & _ & Honly).
- split; reflexivity.
- split; reflexivity.
- destruct Honly as [_ Hn].
  + intros H. by apply Exists_nil in H.
  + intros H. apply Exists_cons in H as [[H _]|H]; [discriminate H|].
    by apply Exists_nil in H.
  + intros H. by apply Exists_nil in H.
  + exists a. split; [exact Ha|].
    split; [exact (Hn "a.bam") | exact (Hn "b.bam")].
Defined.

(** C4 as stated fails when a third status-200 entry shares the identifier:
    the first two entries are two entries with the same identifier and
    status 200, and the file map of the identifier holds the file of the
    third, which the union of the files of the two does not. *)
Lemma sanitize_third_entry_counterexample :
  let pA := Payload.mk "SRR000001" 200 "" [file "a.bam" "http://x/a.bam"] in
  let pB := Payload.mk "SRR000001" 200 "" [file "b.bam" "http://x/b.bam"] in
  let pC := Payload.mk "SRR000001" 200 "" [file "c.bam" "http://x/c.bam"] in
  let union := merge_files ∅ (Payload.Files pB) ∪ merge_files ∅ (Payload.Files pA) in
  succeeded "SRR000001" pA ∧ succeeded "SRR000001" pB ∧
  ∃ a,
    accs_of (sanitize sample_sprint_File [pA; pB; pC]) !! "SRR000001" = Some a ∧
    Accession.Files a !! "c.bam" = Some (file "c.bam" "http://x/c.bam") ∧
    union !! "c.bam" = None ∧
    Accession.Files a ≠ union.
Proof.
intros pA pB pC union.
split; [split; reflexivity|]. split; [split; reflexivity|].
exists (Accession.mk "SRR000001"
          (merge_files ∅ (Payload.Files pA ++ Payload.Files pB ++ Payload.Files pC))).
split; [vm_compute; reflexivity|].
split; [vm_compute; reflexivity|].
split; [vm_compute; reflexivity|].
intros H. apply (f_equal (λ m, m !! "c.bam")) in H. vm_compute in H.
discriminate H.
Qed.

(** C5 as stated fails: the second entry has status 404, and its identifier
    is a key of the result, put there by the first entry. *)
Lemma failed_entry_key_counterexample :
  let p := Payload.mk "SRR000001" 404 "gone" [] in
  let payload := [resolved; p] in
  p ∈ payload ∧
  Payload.Status p ≠ 200%Z ∧
  Payload.ID p ∈ dom (accs_of (sanitize sample_sprint_File payload)).
Proof.
split; [|split].
- apply list_elem_of_further, list_elem_of_here.
- discriminate.
- apply elem_of_dom. eexists. reflexivity.
Qed.

Lemma failed_entry_is_skipped_witness :
  accs_of (sanitize sample_sprint_File [resolved; unresolved])
  = accs_of (sanitize sample_sprint_File [resolved]) ∧
  msg (sanitize_loop sample_sprint_File [resolved; unresolved])
  = msg (sanitize_loop sample_sprint_File [resolved])
    +:+ "issue with accession SRR000002: no data" +:+ nl.
Proof.
destruct (failed_entry_is_skipped sample_sprint_File [resolved] [] unresolved)
  as (_ & Hm & Ha & _ & _).
- cbn. lia.
- split; [exact Ha | exact Hm].
Defined.

Lemma file_guards_witness :
  let p := with_files resolved [] in
  let f := file "" "http://x/a.bam" in
  accs_of (sanitize sample_sprint_File
             [with_files p [file "a.bam" "http://x/a.bam"; f; file "c.bam" "http://x/c.bam"]])
  = accs_of (sanitize sample_sprint_File
               [with_files p [file "a.bam" "http://x/a.bam"; file "c.bam" "http://x/c.bam"]]).
Proof.
intros p f.
destruct (file_guards sample_sprint_File [] [] p [file "a.bam" "http://x/a.bam"]
            [file "c.bam" "http://x/c.bam"] f) as (_ & _ & _ & H).
- reflexivity.
- destruct H as [H _]; [right; reflexivity | exact H].
Defined.

Lemma reaches_decoding_json_response bytes :
  reaches_decoding (json_response bytes) bytes.
Proof. repeat split. Defined.

Lemma ResolveNames_decoding_witness :
  out_err (ResolveNames sample_sprint_File sample_unmarshal_payloads
             sample_unmarshal_payload (Some (json_response body_not_found)))
  = Some "encountered error from Name Resolver API: 404: not found".
Proof.
exact (proj2 (proj1 (ResolveNames_decoding sample_sprint_File
                       sample_unmarshal_payloads sample_unmarshal_payload
                       (json_response body_not_found) body_not_found
                       (reaches_decoding_json_response body_not_found)))).
Defined.

(** C8 as stated fails: the two calls resolve the same identifier and return
    the same values, a map and a nil error, while the diagnostic messages
    behind them differ; the message is no part of what is returned. *)
Lemma ResolveNames_returns_no_msg_counterexample :
  let r1 := ResolveNames sample_sprint_File sample_unmarshal_payloads
              sample_unmarshal_payload (Some (json_response body_resolved_only)) in
  let r2 := ResolveNames sample_sprint_File sample_unmarshal_payloads
              sample_unmarshal_payload (Some (json_response body_scenario)) in
  out_accessions r1 = out_accessions r2 ∧
  out_err r1 = None ∧ out_err r2 = None ∧
  (∃ m, out_accessions r2 = Some m ∧ m ≠ ∅) ∧
  msg_of (sanitize sample_sprint_File [resolved]) = "" ∧
  msg_of (sanitize sample_sprint_File scenario)
  = "issue with accession SRR000002: no data" +:+ nl.
Proof.
intros r1 r2.
split; [vm_compute; reflexivity|].
split; [vm_compute; reflexivity|].
split; [vm_compute; reflexivity|].
split; [|split; vm_compute; reflexivity].
exists (accs_of (sanitize sample_sprint_File scenario)).
split; [vm_compute; reflexivity|].
intros H. apply (f_equal (λ m, m !! "SRR000001")) in H.
vm_compute in H. discriminate H.
Qed.

Lemma ResolveNames_prints_diagnostics_witness :
  ResolveNames sample_sprint_File sample_unmarshal_payloads sample_unmarshal_payload
    (Some (json_response body_scenario))
  = {| out_accessions := Some (accs_of (sanitize sample_sprint_File scenario));
       out_err := None;
       out_stdout := "issue with accession SRR000002: no data" +:+ nl +:+ nl |}.
Proof.
refine (ResolveNames_prints_diagnostics sample_sprint_File
          sample_unmarshal_payloads sample_unmarshal_payload
          (json_response body_scenario) body_scenario scenario
          (reaches_decoding_json_response body_scenario) _ _).
- vm_compute. reflexivity.
- intros H. apply (f_equal (λ m, m !! "SRR000001")) in H.
  vm_compute in H. discriminate H.
Defined.

Lemma ResolveNames_single_object_fails_witness :
  out_accessions (ResolveNames sample_sprint_File sample_unmarshal_payloads
                    sample_unmarshal_payload (Some (json_response body_resolved)))
  = None ∧
  out_err (ResolveNames sample_sprint_File sample_unmarshal_payloads
             sample_unmarshal_payload (Some (json_response body_resolved)))
  = Some "encountered error from Name Resolver API: 200: " ∧
  out_stdout (ResolveNames sample_sprint_File sample_unmarshal_payloads
                sample_unmarshal_payload (Some (json_response body_resolved)))
  = "".
Proof.
refine (ResolveNames_single_object_fails sample_sprint_File
          sample_unmarshal_payloads sample_unmarshal_payload
          (json_response body_resolved) body_resolved resolved
          (reaches_decoding_json_response body_resolved) _ _); reflexivity.
Defined.

Lemma sanitize_invariant_witness :
  ∃ a,
    accs_of (sanitize sample_sprint_File scenario) !! "SRR000001" = Some a ∧
    Accession.ID a = "SRR000001" ∧
    ∀ n f, Accession.Files a !! n = Some f → File.Name f = n ∧ File.Link f ≠ "".
Proof.
exists (Accession.mk "SRR000001" {[ "a.bam" := file "a.bam" "http://x/a.bam" ]}).
assert (accs_of (sanitize sample_sprint_File scenario) !! "SRR000001"
        = Some (Accession.mk "SRR000001"
                  {[ "a.bam" := file "a.bam" "http://x/a.bam" ]})) as H.
{ vm_compute. reflexivity. }
split; [exact H|].
exact (proj2 (sanitize_invariant sample_sprint_File scenario 0) _ _ H).
Defined.

(** * The further properties at the sample data *)

Lemma resolved_accession_lookup :
  accs_of (sanitize sample_sprint_File scenario) !! "SRR000001"
  = Some resolved_accession.
Proof. vm_compute. reflexivity. Defined.

Lemma sanitize_grows_witness :
  ∃ a2,
    accs_of (sanitize sample_sprint_File ([resolved] ++ [unresolved]))
      !! "SRR000001" = Some a2 ∧
    dom (Accession.Files resolved_accession) ⊆ dom (Accession.Files a2) ∧
    ∀ n, named n (files_for "SRR000001" [unresolved]) = [] →
         Accession.Files a2 !! n = Accession.Files resolved_accession !! n.
Proof.
apply (sanitize_grows sample_sprint_File [resolved] [unresolved] "SRR000001"
         resolved_accession).
vm_compute. reflexivity.
Defined.

Lemma sanitize_files_provenance_witness :
  "a.bam" ≠ "" ∧
  File.Name (file "a.bam" "http://x/a.bam") = "a.bam" ∧
  File.Link (file "a.bam" "http://x/a.bam") ≠ "" ∧
  ∃ p, p ∈ scenario ∧ Payload.ID p = "SRR000001" ∧ Payload.Status p = 200%Z
       ∧ file "a.bam" "http://x/a.bam" ∈ Payload.Files p.
Proof.
apply (sanitize_files_provenance sample_sprint_File scenario "SRR000001" "a.bam"
         resolved_accession (file "a.bam" "http://x/a.bam")).
- exact resolved_accession_lookup.
- vm_compute. reflexivity.
Defined.

Lemma sanitize_keeps_wellformed_witness :
  ∃ a g,
    accs_of (sanitize sample_sprint_File scenario) !! Payload.ID resolved = Some a ∧
    Accession.Files a !! File.Name (file "a.bam" "http://x/a.bam") = Some g ∧
    last (named (File.Name (file "a.bam" "http://x/a.bam"))
            (files_for (Payload.ID resolved) scenario)) = Some g.
Proof.
apply (sanitize_keeps_wellformed sample_sprint_File scenario resolved
         (file "a.bam" "http://x/a.bam")).
- apply list_elem_of_here.
- reflexivity.
- apply list_elem_of_here.
- discriminate.
- discriminate.
Defined.

Lemma sanitize_all_succeeded_witness :
  err_of (sanitize sample_sprint_File [resolved]) = None ∧
  msg_of (sanitize sample_sprint_File [resolved]) = "" ∧
  dom (accs_of (sanitize sample_sprint_File [resolved]))
  = list_to_set (Payload.ID <$> [resolved]).
Proof.
apply (sanitize_all_succeeded sample_sprint_File [resolved]).
- discriminate.
- intros p Hp. apply list_elem_of_singleton in Hp. subst p. reflexivity.
- intros p f Hp Hf. apply list_elem_of_singleton in Hp. subst p.
  apply list_elem_of_singleton in Hf. subst f. split; discriminate.
Defined.

Lemma ReadNgcFile_rejects_without_region_witness :
  ReadNgcFile sample_url_Parse sample_s3_GetObject ngc_without_region
  = (None, Some (invalid_s3_location ngc_without_region)).
Proof.
apply (ReadNgcFile_rejects_without_region sample_url_Parse sample_s3_GetObject
         ngc_without_region "mybucket"
         (URL.mk "mybucket.s3.amazonaws.com" "/prj.ngc")); reflexivity.
Defined.

Lemma ReadNgcFile_reads_witness :
  ReadNgcFile sample_url_Parse sample_s3_GetObject ngc_with_region
  = (Some "us-east-1:mybucket:/prj.ngc", None).
Proof.
apply (ReadNgcFile_reads sample_url_Parse sample_s3_GetObject
         ngc_with_region "mybucket" "us-east-1" "s3.amazonaws.com"
         (URL.mk "mybucket.us-east-1.s3.amazonaws.com" "/prj.ngc"));
  reflexivity.
Defined.


Lemma download_commands_of_sanitize_witness :
  ∃ p f,
    p ∈ scenario ∧ Payload.ID p = "SRR000001" ∧ Payload.Status p = 200%Z ∧
    f ∈ Payload.Files p ∧ File.Name f ≠ "" ∧ File.Link f ≠ "" ∧
    ["-o"; "out/SRR000001/a.bam"; "http://x/a.bam"]
    = ["-o"; sample_Join ["out"; "SRR000001"; File.Name f]; File.Link f].
Proof.
apply (download_commands_of_sanitize sample_Join sample_sprint_File scenario
         "SRR000001" resolved_accession false true
         ({[ "bam" := true ]} : gmap string bool) "out").
- exact resolved_accession_lookup.
- vm_compute. apply list_elem_of_here.
Defined.

Lemma ResolveNames_request_parts_witness :
  ∃ parts,
    ResolveNames_request io_ok "" "s3.us-east-1" None
      ({[ "SRR000001" := true ]} : gmap string bool)
    = inr (default_endpoint, parts) ∧
    FormField "acc" "SRR000001" ∈ parts ∧
    length parts = 4%nat.
Proof.
destruct (ResolveNames_request_parts io_ok "" "s3.us-east-1" None
            ({[ "SRR000001" := true ]} : gmap string bool))
  as (parts & Hreq & Hin & Hlen).
- intros op. reflexivity.
- exists parts. split; [exact Hreq|]. split; [|exact Hlen].
  apply Hin. right; right; right; right. exists "SRR000001". split; [|reflexivity].
  apply elem_of_dom. eexists. vm_compute. reflexivity.
Defined.

Lemma download_commands_spec_witness :
  ∃ fs : list (string * File.t),
    NoDup fs.*1 ∧
    (∀ n f, (n, f) ∈ fs
            ↔ Accession.Files resolved_accession !! n = Some f
              ∧ wanted true ({[ "bam" := true ]} : gmap string bool) f = true) ∧
    download_commands sample_Join false true
      ({[ "bam" := true ]} : gmap string bool) "out" resolved_accession
    = (λ nf : string * File.t,
         ["-o"; sample_Join ["out"; Accession.ID resolved_accession; File.Name nf.2];
          File.Link nf.2])
      <$> fs.
Proof.
apply (proj2 (proj2 (download_commands_spec sample_Join false true
                       ({[ "bam" := true ]} : gmap string bool) "out"
                       resolved_accession))).
reflexivity.
Defined.
